(** * Support Ticket Management Agent: a shallow embedding of [agentic_ai.py]

    The development follows the source file top to bottom:

    - [PyStr]   the [str] methods the program calls ([lower], [strip],
                [capitalize], [in], [join], [int], f-string formatting of
                integers);
    - [Re]      the fragment of Python's [re] module the four patterns of
                [process_query] are written in, as a backtracking matcher
                (leftmost match, greedy quantifiers, ordered alternation);
    - [Json]    the document held by [tickets.json];
    - the ticket store ([get_ticket_by_id], [list_tickets_by_status],
                [update_ticket_assignment]), the router ([process_query])
                and the interactive loop ([main]).

    Modelling conventions.  A Python [str] is a Rocq [string] whose
    characters are the code points U+0000 to U+00FF (Latin-1); [lower],
    [strip], [\w] and [\d] are Python's on these code points.  The capital
    of two letters, U+00B5 and U+00FF, lies outside Latin-1; [capitalize]
    leaves them as they are, and every statement that depends on the value
    of a capitalized name assumes [latin1_capital] of it.  A Python [int]
    is a [Z]; [int] applies CPython's default limit of 4300 digits.  The
    module-level list [tickets], the file [tickets.json] and the
    environment's answer to each attempt to open the file for writing form
    the explicit state [store].  A ticket is the record of the five keys
    the program reads; other keys of an object of the file are outside the
    model.  Python exceptions are the [Raise] results; a computation
    returns its result together with the state it leaves, also when it
    raises. *)

From Stdlib Require Import ZArith List Bool Ascii String Lia.
From Stdlib Require Import Numbers.DecimalString.
Import ListNotations.

Set Warnings "-register-all".

Local Open Scope string_scope.
Local Open Scope bool_scope.

(** ** Exceptions and the result monad *)

Inductive exn : Type :=
| ValueError
| TypeError
| AttributeError
| EOFError
| OSError.

Inductive result (A : Type) : Type :=
| Ok (a : A)
| Raise (e : exn).

Arguments Ok {A} a.
Arguments Raise {A} e.

(** ** Python strings *)

Module PyStr.

Definition code (c : ascii) : nat := nat_of_ascii c.

Definition in_range (lo hi : nat) (c : ascii) : bool :=
  (lo <=? code c)%nat && (code c <=? hi)%nat.


(** The Latin-1 characters that [lower] changes: A-Z, U+00C0-U+00D6 and
    U+00D8-U+00DE. *)
Definition is_upper (c : ascii) : bool :=
  in_range 65 90 c || in_range 192 214 c || in_range 216 222 c.

(** The Latin-1 characters whose capital is the character 32 places
    below: a-z, U+00E0-U+00F6 and U+00F8-U+00FE. *)
Definition is_lower (c : ascii) : bool :=
  in_range 97 122 c || in_range 224 246 c || in_range 248 254 c.

(** [\d] on Latin-1 text: the ten digits. *)
Definition is_digit (c : ascii) : bool := in_range 48 57 c.

(** [\w] on Latin-1 text: the underscore and the alphanumeric characters,
    which are the ASCII letters and digits, U+00AA, U+00B2, U+00B3, U+00B5,
    U+00B9, U+00BA, U+00BC-U+00BE, U+00C0-U+00D6, U+00D8-U+00F6 and
    U+00F8-U+00FF. *)
Definition is_word (c : ascii) : bool :=
  in_range 65 90 c || in_range 97 122 c || is_digit c || (code c =? 95)%nat ||
  (code c =? 170)%nat || in_range 178 179 c || (code c =? 181)%nat ||
  in_range 185 186 c || in_range 188 190 c || in_range 192 214 c ||
  in_range 216 246 c || in_range 248 255 c.

(** The characters [str.strip()] removes: tab, LF, VT, FF, CR, the four
    separators U+001C-U+001F, the space, U+0085 and U+00A0. *)
Definition is_space (c : ascii) : bool :=
  in_range 9 13 c || in_range 28 31 c || (code c =? 32)%nat ||
  (code c =? 133)%nat || (code c =? 160)%nat.

Definition lower_char (c : ascii) : ascii :=
  if is_upper c then ascii_of_nat (code c + 32) else c.

(** The title-cased form of one character: the capital of a lower-case
    letter, "Ss" for U+00DF, and the character itself otherwise.  The
    capitals of U+00B5 and U+00FF are U+039C and U+0178, which are not
    Latin-1: the model leaves these two letters unchanged. *)
Definition title_char (c : ascii) : string :=
  if is_lower c then String (ascii_of_nat (code c - 32)) EmptyString
  else if (code c =? 223)%nat then "Ss"
  else String c EmptyString.

(** The capital of the first character of [s] is a Latin-1 character, so
    that [capitalize s] below is Python's [s.capitalize()]. *)
Definition latin1_capital (s : string) : bool :=
  match s with
  | EmptyString => true
  | String c _ => negb ((code c =? 181)%nat || (code c =? 255)%nat)
  end.

(** [s.lower()] *)
Fixpoint lower (s : string) : string :=
  match s with
  | EmptyString => EmptyString
  | String c s' => String (lower_char c) (lower s')
  end.

(** [s.capitalize()]: first character title-cased, the rest lower-cased. *)
Definition capitalize (s : string) : string :=
  match s with
  | EmptyString => EmptyString
  | String c s' => title_char c ++ lower s'
  end.

Fixpoint lstrip (s : string) : string :=
  match s with
  | EmptyString => EmptyString
  | String c s' => if is_space c then lstrip s' else s
  end.

Fixpoint rstrip (s : string) : string :=
  match s with
  | EmptyString => EmptyString
  | String c s' =>
      match rstrip s' with
      | EmptyString => if is_space c then EmptyString else String c EmptyString
      | r => String c r
      end
  end.

(** [s.strip()] *)
Definition strip (s : string) : string := rstrip (lstrip s).

(** [s[len(p):]] when [s.startswith(p)]. *)
Fixpoint strip_prefix (p s : string) : option string :=
  match p with
  | EmptyString => Some s
  | String a p' =>
      match s with
      | EmptyString => None
      | String b s' => if Ascii.eqb a b then strip_prefix p' s' else None
      end
  end.

Definition startswith (p s : string) : bool :=
  match strip_prefix p s with Some _ => true | None => false end.

(** [sub in s] *)
Fixpoint contains (sub s : string) : bool :=
  startswith sub s ||
  match s with
  | EmptyString => false
  | String _ s' => contains sub s'
  end.

(** [s[i:]] *)
Fixpoint drop (i : nat) (s : string) : string :=
  match i, s with
  | O, _ => s
  | S i', String _ s' => drop i' s'
  | S _, EmptyString => EmptyString
  end.

(** [s[:n]] *)
Fixpoint take (n : nat) (s : string) : string :=
  match n, s with
  | S n', String c s' => String c (take n' s')
  | _, _ => EmptyString
  end.

(** [sep.join(parts)] *)
Fixpoint join (sep : string) (parts : list string) : string :=
  match parts with
  | [] => EmptyString
  | [p] => p
  | p :: rest => p ++ sep ++ join sep rest
  end.

(** Every character of [s] satisfies [p]. *)
Fixpoint all_in (p : ascii -> bool) (s : string) : bool :=
  match s with
  | EmptyString => true
  | String c s' => p c && all_in p s'
  end.

Definition all_digits (s : string) : bool := all_in is_digit s.

Definition digit_value (c : ascii) : Z := Z.of_nat (code c - 48).

Fixpoint digits_value (acc : Z) (s : string) : Z :=
  match s with
  | EmptyString => acc
  | String c s' => digits_value (10 * acc + digit_value c)%Z s'
  end.

(** [sys.get_int_max_str_digits()], at the interpreter's default. *)
Definition int_max_str_digits : nat := 4300.

(** [int(x)] for [x] a match group: [None] is Python's [None] (a group that
    did not take part in the match) and raises [TypeError]; a non-empty run
    of at most [int_max_str_digits] decimal digits is read in base ten; a
    longer run raises [ValueError], and so does anything else.  (Python's
    [int] also accepts a sign, surrounding blanks and underscores between
    digits; none of them can occur in text captured by [\d+].) *)
Definition int (x : option string) : result Z :=
  match x with
  | None => Raise TypeError
  | Some s =>
      match s with
      | EmptyString => Raise ValueError
      | _ =>
          if all_digits s then
            if (String.length s <=? int_max_str_digits)%nat
            then Ok (digits_value 0 s)
            else Raise ValueError
          else Raise ValueError
      end
  end.

(** [str(n)], as used by f-string interpolation of an integer. *)
Definition str_of_int (n : Z) : string := NilZero.string_of_int (Z.to_int n).

(** [s[:1]], as an optional character. *)
Definition first_char (s : string) : option ascii :=
  match s with
  | EmptyString => None
  | String c _ => Some c
  end.

(** The newline character in the source's string literals. *)
Definition nl : string := String (ascii_of_nat 10) EmptyString.

(** [c * n] for a one-character string [c]. *)
Fixpoint repeat_char (c : ascii) (n : nat) : string :=
  match n with
  | O => EmptyString
  | S n' => String c (repeat_char c n')
  end.

End PyStr.

Import PyStr.

(** ** The fragment of [re] used by the router *)

Module Re.

(** Pattern syntax: literal text, one-or-more repetition of a character
    class ([\d+], [\w+]), concatenation, ordered alternation ([a|b]), the
    greedy optional ([(?:a)?]) and numbered capturing groups. *)
Inductive regex : Type :=
| Lit (l : string)
| Rep1 (p : ascii -> bool)
| Seq (a b : regex)
| Alt (a b : regex)
| Opt (a : regex)
| Grp (n : nat) (a : regex).

Definition captures : Type := list (nat * string).

(** The text consumed between the input [s] and its suffix [s']. *)
Definition consumed (s s' : string) : string :=
  take (String.length s - String.length s') s.

(** [p+], greedy: take as many characters as possible, give them back one
    at a time while the rest of the pattern fails. *)
Fixpoint rep1 {A : Type} (p : ascii -> bool) (s : string)
  (k : string -> option A) : option A :=
  match s with
  | EmptyString => None
  | String c s' =>
      if p c then
        match rep1 p s' k with
        | Some r => Some r
        | None => k s'
        end
      else None
  end.

(** Backtracking match of [r] at the head of [s]; the continuation [k]
    receives the rest of the input and the groups captured so far, and a
    [None] from it makes the matcher try its next choice. *)
Fixpoint rmatch {A : Type} (r : regex) (s : string) (caps : captures)
  (k : string -> captures -> option A) : option A :=
  match r with
  | Lit l =>
      match strip_prefix l s with
      | Some s' => k s' caps
      | None => None
      end
  | Rep1 p => rep1 p s (fun s' => k s' caps)
  | Seq a b => rmatch a s caps (fun s' caps' => rmatch b s' caps' k)
  | Alt a b =>
      match rmatch a s caps k with
      | Some res => Some res
      | None => rmatch b s caps k
      end
  | Opt a =>
      match rmatch a s caps k with
      | Some res => Some res
      | None => k s caps
      end
  | Grp n a =>
      rmatch a s caps (fun s' caps' => k s' ((n, consumed s s') :: caps'))
  end.

(** A match object: the whole matched text and the captured groups. *)
Record match_obj : Type := MatchObj {
  whole : string;
  groups : captures
}.

Definition match_at (r : regex) (s : string) : option match_obj :=
  rmatch r s [] (fun s' caps => Some (MatchObj (consumed s s') caps)).

(** [re.search(r, s)]: the match at the leftmost position that has one. *)
Fixpoint search (r : regex) (s : string) : option match_obj :=
  match match_at r s with
  | Some m => Some m
  | None =>
      match s with
      | EmptyString => None
      | String _ s' => search r s'
      end
  end.

Fixpoint lookup (n : nat) (caps : captures) : option string :=
  match caps with
  | [] => None
  | (i, v) :: rest => if Nat.eqb i n then Some v else lookup n rest
  end.

(** [m.group(n)]; [None] when group [n] did not take part in the match. *)
Definition group (n : nat) (m : match_obj) : option string :=
  match n with
  | O => Some (whole m)
  | _ => lookup n (groups m)
  end.

End Re.

Import Re.

(** [r'open|closed|pending'] *)
Definition status_re : regex :=
  Alt (Lit "open") (Alt (Lit "closed") (Lit "pending")).

(** [r"assign (?:ticket )?(\d+)(?: ticket)? to (\w+)"] *)
Definition assign_re : regex :=
  Seq (Lit "assign ")
 (Seq (Opt (Lit "ticket "))
 (Seq (Grp 1 (Rep1 is_digit))
 (Seq (Opt (Lit " ticket"))
 (Seq (Lit " to ")
      (Grp 2 (Rep1 is_word)))))).

(** [r"who (?:is working on|is assigned to) ticket (\d+)"] *)
Definition who_re : regex :=
  Seq (Lit "who ")
 (Seq (Alt (Lit "is working on") (Lit "is assigned to"))
 (Seq (Lit " ticket ")
      (Grp 1 (Rep1 is_digit)))).

(** [r"summarize ticket (\d+)"] *)
Definition summary_re : regex :=
  Seq (Lit "summarize ticket ") (Grp 1 (Rep1 is_digit)).

(** ** The document stored in [tickets.json] *)

Module Json.

(** The JSON values the program reads and writes: integers, strings,
    arrays and objects (members in file order). *)
Inductive value : Type :=
| JInt (n : Z)
| JStr (s : string)
| JArr (items : list value)
| JObj (members : list (string * value)).

(** [d[k]] on the members of an object, in file order: when a key is
    repeated, the parser keeps its last value. *)
Fixpoint get (k : string) (members : list (string * value)) : option value :=
  match members with
  | [] => None
  | (k', v) :: rest =>
      match get k rest with
      | Some v' => Some v'
      | None => if String.eqb k' k then Some v else None
      end
  end.

End Json.

Import Json.

(** ** The ticket store *)

(** A ticket: the five keys of one object of [tickets.json]. *)
Record ticket : Type := Ticket {
  ticket_id : Z;
  title : string;
  description : string;
  status : string;
  assigned_to : string
}.

(** [ticket["assigned_to"] = who] *)
Definition set_assigned_to (t : ticket) (who : string) : ticket :=
  {| ticket_id := ticket_id t;
     title := title t;
     description := description t;
     status := status t;
     assigned_to := who |}.

Definition ticket_to_json (t : ticket) : value :=
  JObj [("ticket_id", JInt (ticket_id t));
        ("title", JStr (title t));
        ("description", JStr (description t));
        ("status", JStr (status t));
        ("assigned_to", JStr (assigned_to t))].

Definition ticket_of_json (v : value) : option ticket :=
  match v with
  | JObj ms =>
      match get "ticket_id" ms, get "title" ms, get "description" ms,
            get "status" ms, get "assigned_to" ms with
      | Some (JInt i), Some (JStr t), Some (JStr d), Some (JStr s),
        Some (JStr a) => Some (Ticket i t d s a)
      | _, _, _, _, _ => None
      end
  | _ => None
  end.

Fixpoint tickets_of_json (vs : list value) : option (list ticket) :=
  match vs with
  | [] => Some []
  | v :: rest =>
      match ticket_of_json v, tickets_of_json rest with
      | Some t, Some ts => Some (t :: ts)
      | _, _ => None
      end
  end.

(** [json.dump(tickets, file, indent=4)]: the document written. *)
Definition json_dump (ts : list ticket) : value :=
  JArr (map ticket_to_json ts).

(** [json.load(file)], read as a list of tickets; [None] when the document
    is not an array of ticket objects. *)
Definition json_load (doc : value) : option (list ticket) :=
  match doc with
  | JArr vs => tickets_of_json vs
  | _ => None
  end.

(** The program state: the module-level list [tickets], the contents of
    [tickets.json], how many times the file has been written, and the
    environment: [writable n] tells whether the write attempted once [n]
    writes have been made succeeds.  When it does not, [OSError] is raised;
    the model then leaves the file as it was, which is what a failure of
    [open] does, and no theorem below depends on what a failed write
    leaves in the file. *)
Record store : Type := Store {
  tickets : list ticket;
  disk : value;
  writes : nat;
  writable : nat -> bool
}.

(** A computation on the state: its result, or the exception it raises,
    and the state it leaves. *)
Definition M (A : Type) : Type := store -> result A * store.

Definition ret {A : Type} (a : A) : M A := fun st => (Ok a, st).

(** A computation that does not touch the state. *)
Definition pure {A : Type} (r : result A) : M A := fun st => (r, st).

Definition bindM {A B : Type} (m : M A) (f : A -> M B) : M B :=
  fun st =>
    match m st with
    | (Ok a, st') => f a st'
    | (Raise e, st') => (Raise e, st')
    end.

Notation "x <- m ;; k" := (bindM m (fun x => k))
  (at level 61, m at next level, right associativity).

(** Lines 20-24: the collection is read once, at start-up. *)
Definition startup (env : nat -> bool) (doc : value) : option store :=
  match json_load doc with
  | Some ts => Some (Store ts doc 0 env)
  | None => None
  end.

(** Lines 27-39. *)
Fixpoint get_ticket_by_id (id : Z) (ts : list ticket) : option ticket :=
  match ts with
  | [] => None
  | t :: rest =>
      if (ticket_id t =? id)%Z then Some t else get_ticket_by_id id rest
  end.

(** Lines 43-52. *)
Definition list_tickets_by_status (wanted : string) (ts : list ticket)
  : list ticket :=
  filter (fun t => String.eqb (lower (status t)) (lower wanted)) ts.

(** Lines 67-71: the search loop of [update_ticket_assignment].  It returns
    [updated_ticket] and the list after the in-place assignment. *)
Fixpoint assign_first (id : Z) (who : string) (ts : list ticket)
  : option ticket * list ticket :=
  match ts with
  | [] => (None, [])
  | t :: rest =>
      if (ticket_id t =? id)%Z then
        let t' := set_assigned_to t who in (Some t', t' :: rest)
      else
        let (found, rest') := assign_first id who rest in (found, t :: rest')
  end.

(** Lines 54-79.  The list is updated in place (line 69) before the file
    is opened (line 75): when [open] raises, the in-memory change stays. *)
Definition update_ticket_assignment (id : Z) (who : string)
  : M (option ticket) :=
  fun st =>
    match assign_first id who (tickets st) with
    | (Some updated_ticket, ts') =>
        if writable st (writes st) then
          (Ok (Some updated_ticket),
           Store ts' (json_dump ts') (S (writes st)) (writable st))
        else
          (Raise OSError, Store ts' (disk st) (writes st) (writable st))
    | (None, ts') => (Ok None, Store ts' (disk st) (writes st) (writable st))
    end.

(** ** The query router *)

(** [x.capitalize()] for [x] a match group. *)
Definition capitalize_group (x : option string) : result string :=
  match x with
  | None => Raise AttributeError
  | Some s => Ok (capitalize s)
  end.

(** Line 92. *)
Definition status_trigger (query : string) : bool :=
  contains "tickets" query &&
  (contains "open" query || contains "closed" query ||
   contains "pending" query).

(** Line 100. *)
Definition ticket_line (t : ticket) : string :=
  "Tickets " ++ str_of_int (ticket_id t) ++ ": " ++ title t ++
  " (Assigned to " ++ assigned_to t ++ ")".

Definition specify_status_msg : string :=
  "Please specify a valid ticket status (open, closed, or pending).".

Definition fallback_msg : string :=
  "Sorry, I couldn't understand that query. Try asking about a ticket ID, status, or assignment.".

Definition not_found_msg (id : Z) : string :=
  "Ticket " ++ str_of_int id ++ " not found.".

Definition already_assigned_msg (id : Z) (name : string) : string :=
  "Ticket " ++ str_of_int id ++ " is already assigned to " ++ name ++ ".".

Definition now_assigned_msg (id : Z) (name : string) : string :=
  "Ticket " ++ str_of_int id ++ " is now assigned to " ++ name ++ ".".

Definition assigned_msg (id : Z) (name : string) : string :=
  "Ticket " ++ str_of_int id ++ " is assigned to " ++ name ++ ".".

(** Lines 143-147. *)
Definition summary_msg (id : Z) (t : ticket) : string :=
  "Summary of Ticket " ++ str_of_int id ++ ":" ++ nl ++
  "Title: " ++ title t ++ nl ++
  "Description: " ++ description t ++ nl ++
  "Status: " ++ status t ++ nl ++
  "Assigned to: " ++ assigned_to t.

(** Lines 93-105: the body of case 1. *)
Definition status_case (query : string) : M string :=
  match search status_re query with
  | Some status_match =>
      let wanted := whole status_match in
      fun st =>
        match list_tickets_by_status wanted (tickets st) with
        | [] => (Ok ("No tickets found with status '" ++ wanted ++ "'."), st)
        | results => (Ok (join nl (map ticket_line results)), st)
        end
  | None => ret specify_status_msg
  end.

(** Lines 111-125: the body of case 2. *)
Definition assign_case (assign_match : match_obj) : M string :=
  id <- pure (int (group 1 assign_match)) ;;
  new_assignee <- pure (capitalize_group (group 2 assign_match)) ;;
  fun st =>
    match get_ticket_by_id id (tickets st) with
    | None => (Ok (not_found_msg id), st)
    | Some t =>
        if String.eqb (lower (assigned_to t)) (lower new_assignee) then
          (Ok (already_assigned_msg id new_assignee), st)
        else
          (_ <- update_ticket_assignment id new_assignee ;;
           ret (now_assigned_msg id new_assignee)) st
    end.

(** Lines 130-134: the body of case 3. *)
Definition who_case (who_match : match_obj) : M string :=
  id <- pure (int (group 1 who_match)) ;;
  fun st =>
    match get_ticket_by_id id (tickets st) with
    | None => (Ok (not_found_msg id), st)
    | Some t => (Ok (assigned_msg id (assigned_to t)), st)
    end.

(** Lines 139-147: the body of case 4. *)
Definition summary_case (summary_match : match_obj) : M string :=
  id <- pure (int (group 1 summary_match)) ;;
  fun st =>
    match get_ticket_by_id id (tickets st) with
    | None => (Ok (not_found_msg id), st)
    | Some t => (Ok (summary_msg id t), st)
    end.

(** Line 89. *)
Definition normalize (query : string) : string := strip (lower query).

(** Lines 82-150. *)
Definition process_query (query : string) : M string :=
  let query := normalize query in
  if status_trigger query then status_case query
  else
    match search assign_re query with
    | Some assign_match => assign_case assign_match
    | None =>
        match search who_re query with
        | Some who_match => who_case who_match
        | None =>
            match search summary_re query with
            | Some summary_match => summary_case summary_match
            | None => ret fallback_msg
            end
        end
    end.

(** ** The interactive loop *)

(** What the program writes to standard output: the prompt of [input] and
    the lines of [print]. *)
Inductive output : Type :=
| Prompt (text : string)
| Line (text : string).

Inductive loop_state : Type :=
| Running
| Terminated.

Definition sentinels : list string := ["exit"; "quit"].

(** [x in l] on a list of strings. *)
Definition in_list (x : string) (l : list string) : bool :=
  existsb (String.eqb x) l.

Definition farewell : string := "Exiting the Support Ticket Agent. Goodbye!".

(** Lines 163-170: one iteration, after [input] has returned [query]. *)
Definition loop_body (query : string) : M (loop_state * list output) :=
  if in_list (lower query) sentinels then
    ret (Terminated, [Line farewell])
  else
    response <- process_query query ;;
    ret (Running, [Line ("Support Ticket Agent: " ++ response)]).

(** Lines 160-170: the loop on the lines that standard input still holds.
    [input] raises [EOFError] when there is none left; an exception of the
    loop body is not caught and ends the loop. *)
Fixpoint main_loop (stdin : list string) (st : store)
  : list output * store * result unit :=
  match stdin with
  | [] => ([Prompt "You: "], st, Raise EOFError)
  | query :: rest =>
      match loop_body query st with
      | (Raise e, st') => ([Prompt "You: "], st', Raise e)
      | (Ok (Terminated, out), st') => (Prompt "You: " :: out, st', Ok tt)
      | (Ok (Running, out), st') =>
          let '(out', st'', r) := main_loop rest st' in
          (Prompt "You: " :: out ++ out', st'', r)
      end
  end.

(** Lines 153-170. *)
Definition main (stdin : list string) (st : store)
  : list output * store * result unit :=
  let '(out, st', r) := main_loop stdin st in
  (Line "=== Support Ticket Agent ===" ::
   Line "Type a question (e.g. 'Show me all open tickets.')" :: out, st', r).

(** ** Specification-side vocabulary

    The notions the specification words its properties with; the theorems
    relate them to the functions above. *)

(** Declarative reading of the patterns: [matches r s caps s' caps'] says
    that [r] can match a prefix of [s] leaving [s'], extending the captured
    groups [caps] to [caps']. *)
Inductive matches : regex -> string -> captures -> string -> captures -> Prop :=
| m_lit l s s' caps :
    strip_prefix l s = Some s' ->
    matches (Lit l) s caps s' caps
| m_rep1 p pre s' caps :
    pre <> EmptyString ->
    all_in p pre = true ->
    matches (Rep1 p) (pre ++ s') caps s' caps
| m_seq a b s caps s1 caps1 s2 caps2 :
    matches a s caps s1 caps1 ->
    matches b s1 caps1 s2 caps2 ->
    matches (Seq a b) s caps s2 caps2
| m_alt_l a b s caps s' caps' :
    matches a s caps s' caps' ->
    matches (Alt a b) s caps s' caps'
| m_alt_r a b s caps s' caps' :
    matches b s caps s' caps' ->
    matches (Alt a b) s caps s' caps'
| m_opt_some a s caps s' caps' :
    matches a s caps s' caps' ->
    matches (Opt a) s caps s' caps'
| m_opt_none a s caps :
    matches (Opt a) s caps s caps
| m_grp n a s caps s' caps' :
    matches a s caps s' caps' ->
    matches (Grp n a) s caps s' ((n, consumed s s') :: caps').

(** Equality of two strings up to letter case. *)
Definition eq_nocase (a b : string) : Prop := lower a = lower b.

(** [rs] is the selection, in the order of [ts], of the tickets of [ts]
    whose status is [wanted] up to case. *)
Inductive status_selection (wanted : string)
  : list ticket -> list ticket -> Prop :=
| sel_nil : status_selection wanted [] []
| sel_keep t ts rs :
    eq_nocase (status t) wanted ->
    status_selection wanted ts rs ->
    status_selection wanted (t :: ts) (t :: rs)
| sel_skip t ts rs :
    ~ eq_nocase (status t) wanted ->
    status_selection wanted ts rs ->
    status_selection wanted (t :: ts) rs.

(** The five dispatch rules of the router, in priority order. *)
Inductive rule : Type :=
| StatusListing
| Reassignment
| Ownership
| Summary
| Fallback.

Definition priority : list rule :=
  [StatusListing; Reassignment; Ownership; Summary; Fallback].

Definition rank (r : rule) : nat :=
  match r with
  | StatusListing => 0
  | Reassignment => 1
  | Ownership => 2
  | Summary => 3
  | Fallback => 4
  end.

Definition is_some {A : Type} (o : option A) : bool :=
  match o with Some _ => true | None => false end.

(** The trigger condition of each rule on a normalized query. *)
Definition trigger (r : rule) (query : string) : bool :=
  match r with
  | StatusListing => status_trigger query
  | Reassignment => is_some (search assign_re query)
  | Ownership => is_some (search who_re query)
  | Summary => is_some (search summary_re query)
  | Fallback => true
  end.

(** What each rule answers on a normalized query. *)
Definition handler (r : rule) (query : string) : M string :=
  match r with
  | StatusListing => status_case query
  | Reassignment =>
      match search assign_re query with
      | Some m => assign_case m
      | None => pure (Raise AttributeError)
      end
  | Ownership =>
      match search who_re query with
      | Some m => who_case m
      | None => pure (Raise AttributeError)
      end
  | Summary =>
      match search summary_re query with
      | Some m => summary_case m
      | None => pure (Raise AttributeError)
      end
  | Fallback => ret fallback_msg
  end.

(** The first rule of [priority] whose trigger holds. *)
Definition first_match (query : string) : rule :=
  match find (fun r => trigger r query) priority with
  | Some r => r
  | None => Fallback
  end.

(** Rule [r] is the one that handles [query]: its trigger holds and no
    rule of higher priority is triggered. *)
Definition fires (r : rule) (query : string) : Prop :=
  trigger r query = true /\
  (forall r', (rank r' < rank r)%nat -> trigger r' query = false).

(** Mutual exclusion of the four pattern rules on [query]. *)
Definition mutually_exclusive (query : string) : Prop :=
  forall r1 r2,
    r1 <> Fallback -> r2 <> Fallback ->
    trigger r1 query = true -> trigger r2 query = true -> r1 = r2.

(** A sentinel once surrounding blanks are trimmed and case is ignored. *)
Definition trimmed_sentinel (line : string) : bool :=
  in_list (lower (strip line)) sentinels.

(** The loop iteration on [line] ends the loop with the farewell. *)
Definition ends_loop (line : string) (st : store) : Prop :=
  loop_body line st = (Ok (Terminated, [Line farewell]), st).

(** The first character of a response, when there is one. *)
Definition response_first_char (r : result string) : option ascii :=
  match r with
  | Ok resp => first_char resp
  | Raise _ => None
  end.

(** The query gets a response. *)
Definition returns_response (q : string) (st : store) : Prop :=
  exists resp st', process_query q st = (Ok resp, st').

(** The digits a normalized query gives to [int]: the first group of the
    pattern of the rule that handles it, if that rule has one. *)
Definition captured_id (query : string) : option string :=
  if status_trigger query then None
  else
    match search assign_re query with
    | Some m => group 1 m
    | None =>
        match search who_re query with
        | Some m => group 1 m
        | None =>
            match search summary_re query with
            | Some m => group 1 m
            | None => None
            end
        end
    end.


Definition status_keywords : list string := ["open"; "closed"; "pending"].

(** The answer of a status listing for the keyword [kw]. *)
Definition listing_response (kw : string) (st : store) : string :=
  match list_tickets_by_status kw (tickets st) with
  | [] => "No tickets found with status '" ++ kw ++ "'."
  | results => join nl (map ticket_line results)
  end.

(** No character of [s] is one that [strip] removes. *)
Definition no_space (s : string) : bool :=
  all_in (fun c => negb (is_space c)) s.

(** [kw] occurs in [s] at offset [i]. *)
Definition occurs_at (kw : string) (i : nat) (s : string) : Prop :=
  startswith kw (drop i s) = true.

(** ** Vocabulary for the effects of a query and of a session *)

(** [st'] is [st] after one reassignment with outcome [r]: the first
    ticket with the non-negative id [id] has a new assignee [name], which
    is the capitalized form of a captured run [w] of word characters and
    differs from the previous assignee up to case; every other ticket and
    the environment are as they were.  When the file could be written, the
    outcome is the answer "now assigned" and the updated collection is in
    the file, written once; when it could not, the outcome is [OSError]
    and no write is counted. *)
Definition reassigned (st st' : store) (r : result string) : Prop :=
  exists id w name t pre post,
    (0 <= id)%Z /\
    w <> EmptyString /\
    all_in is_word w = true /\
    (latin1_capital w = true -> name = capitalize w) /\
    tickets st = (pre ++ t :: post)%list /\
    ticket_id t = id /\
    (forall u, In u pre -> ticket_id u <> id) /\
    ~ eq_nocase (assigned_to t) name /\
    tickets st' = (pre ++ set_assigned_to t name :: post)%list /\
    writable st' = writable st /\
    ((writable st (writes st) = true /\
      r = Ok (now_assigned_msg id name) /\
      disk st' = json_dump (tickets st') /\
      writes st' = S (writes st)) \/
     (writable st (writes st) = false /\
      r = Raise OSError /\
      writes st' = writes st)).

(** The file holds what the memory holds: both are as in [st0], or the
    file holds the dump of the in-memory collection. *)
Definition file_current (st0 st : store) : Prop :=
  (tickets st = tickets st0 /\ disk st = disk st0) \/
  disk st = json_dump (tickets st).

(** The test of line 164. *)
Definition is_sentinel (line : string) : bool :=
  in_list (lower line) sentinels.

(** The answer of the ownership rule for ticket [id]. *)
Definition who_answer (id : Z) (st : store) : string :=
  match get_ticket_by_id id (tickets st) with
  | None => not_found_msg id
  | Some t => assigned_msg id (assigned_to t)
  end.

(** The answer of the summary rule for ticket [id]. *)
Definition summary_answer (id : Z) (st : store) : string :=
  match get_ticket_by_id id (tickets st) with
  | None => not_found_msg id
  | Some t => summary_msg id t
  end.

(** The outcome and the effect of the reassignment rule for ticket [id]
    and the capitalized name [name] (lines 113-125). *)
Definition reassign_answer (id : Z) (name : string) : M string :=
  fun st =>
    match get_ticket_by_id id (tickets st) with
    | None => (Ok (not_found_msg id), st)
    | Some t =>
        if String.eqb (lower (assigned_to t)) (lower name) then
          (Ok (already_assigned_msg id name), st)
        else
          match update_ticket_assignment id name st with
          | (Ok _, st') => (Ok (now_assigned_msg id name), st')
          | (Raise e, st') => (Raise e, st')
          end
    end.

(** ** Sample data

    The ticket of the specification's scenarios and a second one, used to
    instantiate the theorems below on concrete inputs. *)

Definition login_bug : ticket :=
  Ticket 1 "Login bug" "Cannot log in" "open" "Alice".

Definition crash : ticket :=
  Ticket 2 "Crash on save" "Editor crashes" "Closed" "Bob".

(** An environment in which the file can always be written, and one in
    which it never can. *)
Definition always_writable : nat -> bool := fun _ => true.
Definition never_writable : nat -> bool := fun _ => false.

Definition sample_store : store :=
  Store [login_bug; crash] (json_dump [login_bug; crash]) 0 always_writable.

Definition read_only_store : store :=
  Store [login_bug; crash] (json_dump [login_bug; crash]) 0 never_writable.

(** The letter U+00DF (sharp s), and a store whose only ticket is assigned
    to an agent of that name. *)
Definition sharp_s : string := String (ascii_of_nat 223) EmptyString.

Definition sharp_s_store : store :=
  Store [Ticket 1 "Login bug" "Cannot log in" "open" sharp_s]
        (json_dump [Ticket 1 "Login bug" "Cannot log in" "open" sharp_s])
        0 always_writable.

(** A summary query whose id has one digit more than [int] accepts. *)
Definition long_id_query : string :=
  "summarize ticket " ++ repeat_char "1" (S int_max_str_digits).

(** * Properties *)

(** ** Sanity checks of the embedding on concrete inputs *)

Example lower_ex : lower "Show ME 42_tickets!" = "show me 42_tickets!".
Proof. reflexivity. Qed.

Example strip_ex : strip "   a b  " = "a b".
Proof. reflexivity. Qed.

Example capitalize_ex : capitalize "bob" = "Bob".
Proof. reflexivity. Qed.

Example int_ex : int (Some "007") = Ok 7%Z.
Proof. reflexivity. Qed.

Example int_limit_ex :
  int (Some (repeat_char "1" (S int_max_str_digits))) = Raise ValueError.
Proof. vm_compute. reflexivity. Qed.

Example capitalize_sharp_s_ex : capitalize (sharp_s ++ "X") = "Ssx".
Proof. reflexivity. Qed.

Example lower_latin1_ex :
  lower (String (ascii_of_nat 192) "B") = String (ascii_of_nat 224) "b".
Proof. reflexivity. Qed.

Example strip_nbsp_ex : strip (String (ascii_of_nat 160) "a ") = "a".
Proof. reflexivity. Qed.

Example str_of_int_ex : map str_of_int [0%Z; 42%Z; (-5)%Z] = ["0"; "42"; "-5"].
Proof. reflexivity. Qed.

Example assign_search_ex :
  search assign_re "please assign ticket 12 to bob now" =
  Some (MatchObj "assign ticket 12 to bob" [(2, "bob"); (1, "12")]).
Proof. reflexivity. Qed.

Example assign_search_ex2 :
  search assign_re "assign 7 ticket to al_9-x" =
  Some (MatchObj "assign 7 ticket to al_9" [(2, "al_9"); (1, "7")]).
Proof. reflexivity. Qed.

Example who_search_ex :
  search who_re "who is assigned to ticket 3?" =
  Some (MatchObj "who is assigned to ticket 3" [(1, "3")]).
Proof. reflexivity. Qed.

Example status_search_ex :
  option_map whole (search status_re "reopened and pending") = Some "open".
Proof. reflexivity. Qed.

(** ** The ticket store *)

Section TicketStore.

Local Open Scope list_scope.

Implicit Types (id : Z) (t u : ticket) (ts : list ticket) (st : store).

Lemma get_ticket_by_id_split id ts t :
  get_ticket_by_id id ts = Some t ->
  exists pre post,
    ts = pre ++ t :: post /\ ticket_id t = id /\
    (forall u, In u pre -> ticket_id u <> id).
Proof.
  induction ts as [|a ts IH]; simpl; [discriminate|].
  destruct (Z.eqb_spec (ticket_id a) id) as [E|N].
  - intros [= ->]. exists [], ts. repeat split; auto.
  - intros H. destruct (IH H) as (pre & post & -> & Hid & Hpre).
    exists (a :: pre), post. repeat split; auto.
    intros u [<-|Hu]; auto.
Qed.

Lemma get_ticket_by_id_first id pre t post :
  ticket_id t = id ->
  (forall u, In u pre -> ticket_id u <> id) ->
  get_ticket_by_id id (pre ++ t :: post) = Some t.
Proof.
  intros Hid. induction pre as [|a pre IH]; simpl; intros Hpre.
  - rewrite <- Hid, Z.eqb_refl. reflexivity.
  - destruct (Z.eqb_spec (ticket_id a) id) as [E|N].
    + exfalso. apply (Hpre a); auto.
    + apply IH. intros u Hu. apply Hpre. auto.
Qed.

Lemma get_ticket_by_id_none id ts :
  get_ticket_by_id id ts = None <->
  (forall u, In u ts -> ticket_id u <> id).
Proof.
  induction ts as [|a ts IH]; simpl.
  - split; auto.
  - destruct (Z.eqb_spec (ticket_id a) id) as [E|N].
    + split; [discriminate|]. intros H. exfalso. apply (H a); auto.
    + rewrite IH. split.
      * intros H u [<-|Hu]; auto.
      * intros H u Hu. apply H. auto.
Qed.

Lemma assign_first_found id who pre t post :
  ticket_id t = id ->
  (forall u, In u pre -> ticket_id u <> id) ->
  assign_first id who (pre ++ t :: post) =
  (Some (set_assigned_to t who), pre ++ set_assigned_to t who :: post).
Proof.
  intros Hid. induction pre as [|a pre IH]; simpl; intros Hpre.
  - rewrite <- Hid, Z.eqb_refl. reflexivity.
  - destruct (Z.eqb_spec (ticket_id a) id) as [E|N].
    + exfalso. apply (Hpre a); auto.
    + rewrite IH; auto.
Qed.

Lemma assign_first_missing id who ts :
  (forall u, In u ts -> ticket_id u <> id) ->
  assign_first id who ts = (None, ts).
Proof.
  induction ts as [|a ts IH]; simpl; intros H; [reflexivity|].
  destruct (Z.eqb_spec (ticket_id a) id) as [E|N].
  - exfalso. apply (H a); auto.
  - rewrite IH; auto.
Qed.

Lemma ticket_json_roundtrip t : ticket_of_json (ticket_to_json t) = Some t.
Proof. destruct t. reflexivity. Qed.

Lemma json_roundtrip ts : json_load (json_dump ts) = Some ts.
Proof.
  unfold json_load, json_dump.
  induction ts as [|a ts IH]; [reflexivity|].
  cbn [map tickets_of_json]. rewrite ticket_json_roundtrip, IH. reflexivity.
Qed.

(** C2.  [get_ticket_by_id] returns a ticket exactly when the collection
    holds one with that id, the ticket returned is the first such ticket in
    collection order, and the result is absent exactly when no ticket has
    the id. *)
Theorem get_ticket_by_id_spec id ts :
  ((exists t, get_ticket_by_id id ts = Some t) <->
   (exists u, In u ts /\ ticket_id u = id)) /\
  (forall t, get_ticket_by_id id ts = Some t <->
     exists pre post,
       ts = pre ++ t :: post /\ ticket_id t = id /\
       (forall u, In u pre -> ticket_id u <> id)) /\
  (get_ticket_by_id id ts = None <->
   (forall u, In u ts -> ticket_id u <> id)).
Proof.
  split; [|split].
  - split.
    + intros [t H]. destruct (get_ticket_by_id_split _ _ _ H)
        as (pre & post & -> & Hid & _).
      exists t. split; auto. apply in_or_app. right. left. reflexivity.
    + intros (u & Hu & Hid).
      destruct (get_ticket_by_id id ts) as [t|] eqn:E; [eauto|].
      exfalso. apply (proj1 (get_ticket_by_id_none id ts) E u Hu Hid).
  - intros t. split.
    + apply get_ticket_by_id_split.
    + intros (pre & post & -> & Hid & Hpre).
      apply get_ticket_by_id_first; assumption.
  - apply get_ticket_by_id_none.
Qed.

(** C3.  [list_tickets_by_status] returns exactly the selection of the
    tickets whose status equals the argument up to case, in collection
    order; a ticket is in the result exactly when it is in the collection
    with such a status; and the operation is idempotent: calling it again,
    on the collection or on its own result, returns the same list. *)
Theorem list_tickets_by_status_spec wanted ts :
  status_selection wanted ts (list_tickets_by_status wanted ts) /\
  (forall rs, status_selection wanted ts rs ->
              rs = list_tickets_by_status wanted ts) /\
  (forall t, In t (list_tickets_by_status wanted ts) <->
             In t ts /\ eq_nocase (status t) wanted) /\
  list_tickets_by_status wanted (list_tickets_by_status wanted ts) =
  list_tickets_by_status wanted ts.
Proof.
  unfold list_tickets_by_status, eq_nocase.
  split; [|split; [|split]].
  - induction ts as [|a ts IH]; simpl; [constructor|].
    destruct (String.eqb_spec (lower (status a)) (lower wanted)).
    + apply sel_keep; assumption.
    + apply sel_skip; assumption.
  - intros rs H. induction H as [|a ts rs E _ IH|a ts rs N _ IH]; simpl.
    + reflexivity.
    + unfold eq_nocase in E. rewrite E, String.eqb_refl, IH. reflexivity.
    + destruct (String.eqb_spec (lower (status a)) (lower wanted)) as [E|_].
      * contradiction.
      * exact IH.
  - intros t. rewrite filter_In, String.eqb_eq. reflexivity.
  - induction ts as [|a ts IH]; simpl; [reflexivity|].
    destruct (String.eqb (lower (status a)) (lower wanted)) eqn:E; simpl.
    + rewrite E, IH. reflexivity.
    + exact IH.
Qed.

(** C5.  A successful reassignment of an existing ticket (the file can be
    written) overwrites the [assigned_to] field of the first ticket with
    that id and nothing else: its other four fields, every ticket before it
    and every ticket after it are as they were.  The whole updated
    collection is written to the backing file, once, and loading that file
    again gives back the updated in-memory collection. *)
Theorem update_ticket_assignment_frame id who st t :
  get_ticket_by_id id (tickets st) = Some t ->
  writable st (writes st) = true ->
  exists pre post t' st',
    update_ticket_assignment id who st = (Ok (Some t'), st') /\
    tickets st = pre ++ t :: post /\
    (forall u, In u pre -> ticket_id u <> id) /\
    tickets st' = pre ++ t' :: post /\
    (ticket_id t' = ticket_id t /\ title t' = title t /\
     description t' = description t /\ status t' = status t /\
     assigned_to t' = who) /\
    disk st' = json_dump (tickets st') /\
    writes st' = S (writes st) /\
    json_load (disk st') = Some (tickets st') /\
    startup (writable st') (disk st') =
      Some (Store (tickets st') (disk st') 0 (writable st')).
Proof.
  intros H W.
  destruct (get_ticket_by_id_split _ _ _ H) as (pre & post & E & Hid & Hpre).
  exists pre, post, (set_assigned_to t who).
  exists (Store (pre ++ set_assigned_to t who :: post)
                (json_dump (pre ++ set_assigned_to t who :: post))
                (S (writes st)) (writable st)).
  unfold update_ticket_assignment, startup.
  rewrite E, assign_first_found by assumption. rewrite <- E, W.
  cbn [tickets disk writes writable].
  rewrite json_roundtrip. repeat split; auto.
Qed.

(** C6.  When no ticket of the collection has the id,
    [update_ticket_assignment] returns the absent result and leaves the
    whole state as it was: the in-memory collection, the backing file and
    the count of writes. *)
Theorem update_ticket_assignment_not_found id who st :
  (forall u, In u (tickets st) -> ticket_id u <> id) ->
  update_ticket_assignment id who st = (Ok None, st).
Proof.
  intros H. unfold update_ticket_assignment.
  rewrite assign_first_missing by assumption.
  destruct st; reflexivity.
Qed.

End TicketStore.

Lemma update_ticket_assignment_frame_witness :
  get_ticket_by_id 2 (tickets sample_store) = Some crash /\
  writable sample_store (writes sample_store) = true /\
  exists pre post t' st',
    update_ticket_assignment 2 "Carol" sample_store = (Ok (Some t'), st') /\
    tickets sample_store = (pre ++ crash :: post)%list /\
    (forall u, In u pre -> ticket_id u <> 2%Z) /\
    tickets st' = (pre ++ t' :: post)%list /\
    (ticket_id t' = ticket_id crash /\ title t' = title crash /\
     description t' = description crash /\ status t' = status crash /\
     assigned_to t' = "Carol") /\
    disk st' = json_dump (tickets st') /\
    writes st' = S (writes sample_store) /\
    json_load (disk st') = Some (tickets st') /\
    startup (writable st') (disk st') =
      Some (Store (tickets st') (disk st') 0 (writable st')).
Proof.
  split; [reflexivity|]. split; [reflexivity|].
  apply (update_ticket_assignment_frame 2 "Carol" sample_store crash);
    reflexivity.
Defined.

Lemma update_ticket_assignment_not_found_witness :
  (forall u, In u (tickets sample_store) -> ticket_id u <> 99%Z) /\
  update_ticket_assignment 99 "Carol" sample_store = (Ok None, sample_store).
Proof.
  assert (H : forall u, In u (tickets sample_store) -> ticket_id u <> 99%Z).
  { simpl. intros u [<-|[<-|[]]]; discriminate. }
  split.
  - exact H.
  - apply (update_ticket_assignment_not_found 99 "Carol" sample_store H).
Defined.

(** ** Strings *)

Section Strings.

Implicit Types (c : ascii) (s p : string).

Lemma length_app s1 s2 :
  String.length (s1 ++ s2) = String.length s1 + String.length s2.
Proof. induction s1; simpl; auto. Qed.

Lemma strip_prefix_inv p : forall s s',
  strip_prefix p s = Some s' -> s = p ++ s'.
Proof.
  induction p as [|a p IH]; simpl; intros s s' H.
  - congruence.
  - destruct s as [|b s]; [discriminate|].
    destruct (Ascii.eqb_spec a b) as [->|]; [|discriminate].
    f_equal. apply IH, H.
Qed.

Lemma take_app pre s : take (String.length pre) (pre ++ s) = pre.
Proof.
  induction pre as [|c pre IH]; simpl.
  - destruct s; reflexivity.
  - rewrite IH. reflexivity.
Qed.

Lemma consumed_app pre s : consumed (pre ++ s) s = pre.
Proof.
  unfold consumed. rewrite length_app.
  replace (String.length pre + String.length s - String.length s)
    with (String.length pre) by lia.
  apply take_app.
Qed.


Lemma lower_app s1 s2 : lower (s1 ++ s2) = lower s1 ++ lower s2.
Proof. induction s1; simpl; congruence. Qed.




End Strings.

(** ** The matcher *)

Section Matcher.

Context {A : Type}.

Implicit Types (r : regex) (s : string) (caps : captures).

Lemma rep1_sound p : forall s (k : string -> option A) res,
  rep1 p s k = Some res ->
  exists pre s',
    s = pre ++ s' /\ pre <> EmptyString /\ all_in p pre = true /\ k s' = Some res.
Proof.
  induction s as [|c s IH]; simpl; intros k res H; [discriminate|].
  destruct (p c) eqn:Hc; [|discriminate].
  destruct (rep1 p s k) as [res'|] eqn:E.
  - destruct (IH _ _ E) as (pre & s' & -> & _ & Hall & Hk).
    exists (String c pre), s'. simpl. rewrite Hc, Hall.
    repeat split; congruence.
  - exists (String c EmptyString), s. simpl. rewrite Hc.
    repeat split; congruence.
Qed.

Lemma rmatch_sound r : forall s caps (k : string -> captures -> option A) res,
  rmatch r s caps k = Some res ->
  exists s' caps', matches r s caps s' caps' /\ k s' caps' = Some res.
Proof.
  induction r as [l|p|a IHa b IHb|a IHa b IHb|a IHa|n a IHa];
    simpl; intros s caps k res H.
  - destruct (strip_prefix l s) as [s'|] eqn:E; [|discriminate].
    exists s', caps. split; [constructor|]; assumption.
  - destruct (rep1_sound _ _ _ _ H) as (pre & s' & -> & Hne & Hall & Hk).
    exists s', caps. split; [constructor|]; assumption.
  - destruct (IHa _ _ _ _ H) as (s1 & caps1 & Ma & H1).
    destruct (IHb _ _ _ _ H1) as (s2 & caps2 & Mb & H2).
    exists s2, caps2. split; [econstructor|]; eassumption.
  - destruct (rmatch a s caps k) as [res'|] eqn:E.
    + destruct (IHa _ _ _ _ E) as (s' & caps' & Ma & Hk).
      exists s', caps'. split; [apply m_alt_l; assumption|congruence].
    + destruct (IHb _ _ _ _ H) as (s' & caps' & Mb & Hk).
      exists s', caps'. split; [apply m_alt_r|]; assumption.
  - destruct (rmatch a s caps k) as [res'|] eqn:E.
    + destruct (IHa _ _ _ _ E) as (s' & caps' & Ma & Hk).
      exists s', caps'. split; [apply m_opt_some; assumption|congruence].
    + exists s, caps. split; [apply m_opt_none|assumption].
  - destruct (IHa _ _ _ _ H) as (s' & caps' & Ma & Hk).
    exists s', ((n, consumed s s') :: caps'). split; [constructor|]; assumption.
Qed.

End Matcher.

(** ** What the router's patterns capture *)

Section Patterns.

Implicit Types (r : regex) (s : string) (m : match_obj).

Lemma match_at_sound r s m :
  match_at r s = Some m ->
  exists s' caps,
    matches r s [] s' caps /\ m = MatchObj (consumed s s') caps.
Proof.
  unfold match_at. intros H.
  destruct (rmatch_sound _ _ _ _ _ H) as (s' & caps & M & E).
  exists s', caps. split; congruence.
Qed.

Lemma search_inv r : forall s m,
  search r s = Some m ->
  exists i,
    match_at r (drop i s) = Some m /\
    (forall j, (j < i)%nat -> match_at r (drop j s) = None).
Proof.
  induction s as [|c s IH]; simpl; intros m H.
  - destruct (match_at r EmptyString) eqn:E; [|discriminate].
    exists 0. split; [simpl; congruence|]. intros j Hj. lia.
  - destruct (match_at r (String c s)) eqn:E.
    + exists 0. split; [simpl; congruence|]. intros j Hj. lia.
    + destruct (IH _ H) as (i & Hi & Hlt).
      exists (S i). split; [exact Hi|].
      intros [|j] Hj; [exact E|]. apply Hlt. lia.
Qed.

Lemma search_found r : forall s i m,
  match_at r (drop i s) = Some m -> search r s <> None.
Proof.
  induction s as [|c s IH]; intros i m H.
  - destruct i; simpl in *; rewrite H; discriminate.
  - simpl. destruct (match_at r (String c s)) eqn:E; [discriminate|].
    destruct i as [|i]; [simpl in H; congruence|].
    apply (IH i m). exact H.
Qed.

Ltac inv_matches :=
  repeat match goal with
  | H : matches (Seq _ _) _ _ _ _ |- _ => inversion H; subst; clear H
  | H : matches (Lit _) _ _ _ _ |- _ => inversion H; subst; clear H
  | H : matches (Opt _) _ _ _ _ |- _ => inversion H; subst; clear H
  | H : matches (Alt _ _) _ _ _ _ |- _ => inversion H; subst; clear H
  | H : matches (Grp _ _) _ _ _ _ |- _ => inversion H; subst; clear H
  | H : matches (Rep1 _) _ _ _ _ |- _ => inversion H; subst; clear H
  end.

Ltac groups_done :=
  cbn [group groups lookup Nat.eqb]; rewrite ?consumed_app;
  repeat split; auto.

Lemma assign_re_groups s m :
  search assign_re s = Some m ->
  exists ds w,
    group 1 m = Some ds /\ ds <> EmptyString /\ all_in is_digit ds = true /\
    group 2 m = Some w /\ w <> EmptyString /\ all_in is_word w = true.
Proof.
  intros H. destruct (search_inv _ _ _ H) as (i & Hi & _).
  destruct (match_at_sound _ _ _ Hi) as (s' & caps & M & ->).
  unfold assign_re in M. inv_matches;
    match goal with
    | |- context [[(2, consumed (?w ++ _) _); (1, consumed (?ds ++ _) _)]] =>
        exists ds, w
    end; groups_done.
Qed.

Lemma who_re_groups s m :
  search who_re s = Some m ->
  exists ds, group 1 m = Some ds /\ ds <> EmptyString /\ all_in is_digit ds = true.
Proof.
  intros H. destruct (search_inv _ _ _ H) as (i & Hi & _).
  destruct (match_at_sound _ _ _ Hi) as (s' & caps & M & ->).
  unfold who_re in M. inv_matches;
    match goal with
    | |- context [[(1, consumed (?ds ++ _) _)]] => exists ds
    end; groups_done.
Qed.

Lemma summary_re_groups s m :
  search summary_re s = Some m ->
  exists ds, group 1 m = Some ds /\ ds <> EmptyString /\ all_in is_digit ds = true.
Proof.
  intros H. destruct (search_inv _ _ _ H) as (i & Hi & _).
  destruct (match_at_sound _ _ _ Hi) as (s' & caps & M & ->).
  unfold summary_re in M. inv_matches;
    match goal with
    | |- context [[(1, consumed (?ds ++ _) _)]] => exists ds
    end; groups_done.
Qed.

Lemma int_short ds :
  ds <> EmptyString -> all_in is_digit ds = true ->
  (String.length ds <= int_max_str_digits)%nat ->
  int (Some ds) = Ok (digits_value 0 ds).
Proof.
  intros Hne Hall Hlen. unfold int, all_digits. rewrite Hall.
  destruct (Nat.leb_spec (String.length ds) int_max_str_digits); [|lia].
  destruct ds; [contradiction|reflexivity].
Qed.

Lemma int_long ds :
  ds <> EmptyString -> all_in is_digit ds = true ->
  (int_max_str_digits < String.length ds)%nat ->
  int (Some ds) = Raise ValueError.
Proof.
  intros Hne Hall Hlen. unfold int, all_digits. rewrite Hall.
  destruct (Nat.leb_spec (String.length ds) int_max_str_digits); [lia|].
  destruct ds; reflexivity.
Qed.

Lemma int_digits ds :
  ds <> EmptyString -> all_in is_digit ds = true ->
  int (Some ds) = Ok (digits_value 0 ds) \/ int (Some ds) = Raise ValueError.
Proof.
  intros Hne Hall.
  destruct (Nat.le_gt_cases (String.length ds) int_max_str_digits).
  - left. apply int_short; assumption.
  - right. apply int_long; assumption.
Qed.

End Patterns.

(** ** The query router *)

Section Router.

Implicit Types (q query ds w : string) (st : store) (r : rule)
  (m : match_obj).

Lemma status_case_ok query st :
  exists resp, status_case query st = (Ok resp, st).
Proof.
  unfold status_case. destruct (search status_re query); [|unfold ret; eauto].
  destruct (list_tickets_by_status _ _); eauto.
Qed.

(** The three rules with an id, in terms of [int] of the captured digits
    and of the answers they give for the parsed id. *)
Lemma who_case_spec m ds st :
  group 1 m = Some ds ->
  who_case m st =
  match int (Some ds) with
  | Ok id => (Ok (who_answer id st), st)
  | Raise e => (Raise e, st)
  end.
Proof.
  intros G. unfold who_case, who_answer, bindM, pure. rewrite G.
  destruct (int (Some ds)) as [id|e]; [|reflexivity].
  destruct (get_ticket_by_id id (tickets st)); reflexivity.
Qed.

Lemma summary_case_spec m ds st :
  group 1 m = Some ds ->
  summary_case m st =
  match int (Some ds) with
  | Ok id => (Ok (summary_answer id st), st)
  | Raise e => (Raise e, st)
  end.
Proof.
  intros G. unfold summary_case, summary_answer, bindM, pure. rewrite G.
  destruct (int (Some ds)) as [id|e]; [|reflexivity].
  destruct (get_ticket_by_id id (tickets st)); reflexivity.
Qed.

Lemma assign_case_spec m ds w st :
  group 1 m = Some ds -> group 2 m = Some w ->
  assign_case m st =
  match int (Some ds) with
  | Ok id => reassign_answer id (capitalize w) st
  | Raise e => (Raise e, st)
  end.
Proof.
  intros G1 G2. unfold assign_case, reassign_answer, bindM, pure, ret.
  rewrite G1, G2. cbn [capitalize_group].
  destruct (int (Some ds)) as [id|e]; [|reflexivity].
  destruct (get_ticket_by_id id (tickets st)); [|reflexivity].
  destruct (String.eqb _ _); [reflexivity|].
  destruct (update_ticket_assignment _ _ _) as [[u|e] st']; reflexivity.
Qed.

Lemma update_found id who st t :
  get_ticket_by_id id (tickets st) = Some t ->
  exists pre post,
    tickets st = (pre ++ t :: post)%list /\ ticket_id t = id /\
    (forall u, In u pre -> ticket_id u <> id) /\
    update_ticket_assignment id who st =
    if writable st (writes st) then
      (Ok (Some (set_assigned_to t who)),
       Store (pre ++ set_assigned_to t who :: post)
             (json_dump (pre ++ set_assigned_to t who :: post))
             (S (writes st)) (writable st))
    else
      (Raise OSError,
       Store (pre ++ set_assigned_to t who :: post) (disk st) (writes st)
             (writable st)).
Proof.
  intros H.
  destruct (get_ticket_by_id_split _ _ _ H) as (pre & post & E & Hid & Hpre).
  exists pre, post. repeat split; auto.
  unfold update_ticket_assignment.
  rewrite E, assign_first_found by assumption. reflexivity.
Qed.

(** What the reassignment rule can return. *)
Lemma reassign_answer_outcome id name st :
  (writable st (writes st) = true ->
   exists resp st', reassign_answer id name st = (Ok resp, st')) /\
  (exists o st',
     reassign_answer id name st = (o, st') /\
     ((exists resp, o = Ok resp) \/ o = Raise OSError)).
Proof.
  unfold reassign_answer.
  destruct (get_ticket_by_id id (tickets st)) as [t|] eqn:Ht.
  2:{ split; eauto 6. }
  destruct (String.eqb _ _).
  { split; eauto 6. }
  destruct (update_found id name st t Ht) as (pre & post & _ & _ & _ & ->).
  destruct (writable st (writes st)); split; eauto 6.
  intros H. discriminate H.
Qed.

Lemma process_query_outcome q st :
  exists o st',
    process_query q st = (o, st') /\
    ((exists resp, o = Ok resp) \/ o = Raise ValueError \/ o = Raise OSError).
Proof.
  unfold process_query.
  destruct (status_trigger (normalize q)).
  { destruct (status_case_ok (normalize q) st) as [resp ->]. eauto 6. }
  destruct (search assign_re (normalize q)) as [m|] eqn:Ea.
  { destruct (assign_re_groups _ _ Ea) as (ds & w & G1 & Hne & Hd & G2 & _).
    rewrite (assign_case_spec m ds w st G1 G2).
    destruct (int_digits ds Hne Hd) as [-> | ->]; [|eauto 6].
    destruct (reassign_answer_outcome (digits_value 0 ds) (capitalize w) st)
      as [_ (o & st' & -> & [H|H])]; eauto 6. }
  destruct (search who_re (normalize q)) as [m|] eqn:Ew.
  { destruct (who_re_groups _ _ Ew) as (ds & G1 & Hne & Hd).
    rewrite (who_case_spec m ds st G1).
    destruct (int_digits ds Hne Hd) as [-> | ->]; eauto 6. }
  destruct (search summary_re (normalize q)) as [m|] eqn:Es.
  { destruct (summary_re_groups _ _ Es) as (ds & G1 & Hne & Hd).
    rewrite (summary_case_spec m ds st G1).
    destruct (int_digits ds Hne Hd) as [-> | ->]; eauto 6. }
  unfold ret. eauto 6.
Qed.

(** With an id that [int] accepts and a file that can be written, the
    query gets a response. *)
Lemma process_query_ok q st :
  (forall ds, captured_id (normalize q) = Some ds ->
              (String.length ds <= int_max_str_digits)%nat) ->
  writable st (writes st) = true ->
  exists resp st', process_query q st = (Ok resp, st').
Proof.
  unfold process_query, captured_id. intros Hcap W.
  destruct (status_trigger (normalize q)).
  { destruct (status_case_ok (normalize q) st) as [resp ->]. eauto. }
  destruct (search assign_re (normalize q)) as [m|] eqn:Ea.
  { destruct (assign_re_groups _ _ Ea) as (ds & w & G1 & Hne & Hd & G2 & _).
    rewrite (assign_case_spec m ds w st G1 G2).
    rewrite (int_short ds Hne Hd (Hcap ds G1)).
    apply reassign_answer_outcome, W. }
  destruct (search who_re (normalize q)) as [m|] eqn:Ew.
  { destruct (who_re_groups _ _ Ew) as (ds & G1 & Hne & Hd).
    rewrite (who_case_spec m ds st G1).
    rewrite (int_short ds Hne Hd (Hcap ds G1)). eauto. }
  destruct (search summary_re (normalize q)) as [m|] eqn:Es.
  { destruct (summary_re_groups _ _ Es) as (ds & G1 & Hne & Hd).
    rewrite (summary_case_spec m ds st G1).
    rewrite (int_short ds Hne Hd (Hcap ds G1)). eauto. }
  unfold ret. eauto.
Qed.

(** With an id longer than [int] accepts, the query raises [ValueError]
    and the state is as it was. *)
Lemma process_query_long_id q st ds :
  captured_id (normalize q) = Some ds ->
  (int_max_str_digits < String.length ds)%nat ->
  process_query q st = (Raise ValueError, st).
Proof.
  unfold process_query, captured_id. intros Hcap Hlen.
  destruct (status_trigger (normalize q)); [discriminate|].
  destruct (search assign_re (normalize q)) as [m|] eqn:Ea.
  { destruct (assign_re_groups _ _ Ea) as (ds' & w & G1 & Hne & Hd & G2 & _).
    rewrite (assign_case_spec m ds' w st G1 G2).
    assert (ds' = ds) by congruence. subst ds'.
    rewrite (int_long ds Hne Hd Hlen). reflexivity. }
  destruct (search who_re (normalize q)) as [m|] eqn:Ew.
  { destruct (who_re_groups _ _ Ew) as (ds' & G1 & Hne & Hd).
    rewrite (who_case_spec m ds' st G1).
    assert (ds' = ds) by congruence. subst ds'.
    rewrite (int_long ds Hne Hd Hlen). reflexivity. }
  destruct (search summary_re (normalize q)) as [m|] eqn:Es; [|discriminate].
  destruct (summary_re_groups _ _ Es) as (ds' & G1 & Hne & Hd).
  rewrite (summary_case_spec m ds' st G1).
  assert (ds' = ds) by congruence. subst ds'.
  rewrite (int_long ds Hne Hd Hlen). reflexivity.
Qed.

Lemma process_query_first_match q st :
  process_query q st = handler (first_match (normalize q)) (normalize q) st.
Proof.
  unfold process_query, first_match, priority.
  cbn [find trigger].
  destruct (status_trigger (normalize q)); [reflexivity|].
  destruct (search assign_re (normalize q)) eqn:Ea; cbn [is_some handler].
  { rewrite Ea. reflexivity. }
  destruct (search who_re (normalize q)) eqn:Ew; cbn [is_some handler].
  { rewrite Ew. reflexivity. }
  destruct (search summary_re (normalize q)) eqn:Es; cbn [is_some handler].
  { rewrite Es. reflexivity. }
  reflexivity.
Qed.

Lemma first_match_fires query : fires (first_match query) query.
Proof.
  unfold fires, first_match, priority. cbn [find].
  destruct (trigger StatusListing query) eqn:E1.
  { split; [assumption|]. intros r' Hr. simpl in Hr. lia. }
  destruct (trigger Reassignment query) eqn:E2.
  { split; [assumption|]. intros [] Hr; simpl in Hr; try lia; assumption. }
  destruct (trigger Ownership query) eqn:E3.
  { split; [assumption|]. intros [] Hr; simpl in Hr; try lia; assumption. }
  destruct (trigger Summary query) eqn:E4.
  { split; [assumption|]. intros [] Hr; simpl in Hr; try lia; assumption. }
  cbn [trigger].
  split; [reflexivity|]. intros [] Hr; simpl in Hr; try lia; assumption.
Qed.

Lemma rank_inj r1 r2 : rank r1 = rank r2 -> r1 = r2.
Proof. destruct r1, r2; simpl; intros H; congruence. Qed.

Lemma fires_unique query r1 r2 :
  fires r1 query -> fires r2 query -> r1 = r2.
Proof.
  intros [T1 L1] [T2 L2]. apply rank_inj.
  destruct (Nat.lt_trichotomy (rank r1) (rank r2)) as [H|[H|H]].
  - rewrite (L2 _ H) in T1. discriminate.
  - exact H.
  - rewrite (L1 _ H) in T2. discriminate.
Qed.

(** C1, as the code has it.  On every query and every store exactly one
    of the five rules handles the query: the one whose trigger holds while
    no rule of higher priority is triggered; the outcome is that rule's.
    The outcome is a response whenever the id the rule gives to [int] has
    at most 4300 digits and the file can be written.  It is never an
    exception other than [ValueError] and [OSError]; an id of more than
    4300 digits raises [ValueError] and leaves the state as it was. *)
Theorem process_query_total q st :
  (exists r,
     (fires r (normalize q) /\
      process_query q st = handler r (normalize q) st) /\
     (forall r', fires r' (normalize q) -> r' = r)) /\
  ((forall ds, captured_id (normalize q) = Some ds ->
               (String.length ds <= int_max_str_digits)%nat) ->
   writable st (writes st) = true ->
   returns_response q st) /\
  (exists o st',
     process_query q st = (o, st') /\
     ((exists resp, o = Ok resp) \/ o = Raise ValueError \/
      o = Raise OSError)) /\
  (forall ds, captured_id (normalize q) = Some ds ->
              (int_max_str_digits < String.length ds)%nat ->
              process_query q st = (Raise ValueError, st)).
Proof.
  split; [|split; [|split]].
  - exists (first_match (normalize q)). split; [split|].
    + apply first_match_fires.
    + apply process_query_first_match.
    + intros r' H. apply (fires_unique (normalize q)); [exact H|].
      apply first_match_fires.
  - apply process_query_ok.
  - apply process_query_outcome.
  - intros ds. apply process_query_long_id.
Qed.

(** C1, as stated, fails: a summary query whose id has 4301 digits gets
    no response; [int] raises [ValueError] at line 139. *)
Lemma long_id_gets_no_response :
  ~ returns_response long_id_query sample_store.
Proof.
  assert (E : process_query long_id_query sample_store =
              (Raise ValueError, sample_store)) by (vm_compute; reflexivity).
  intros (resp & st' & H). rewrite E in H. discriminate H.
Qed.

(** C8, as the code has it.  The triggers of the rules are not mutually
    exclusive: one query can satisfy several of them.  The router tries
    the rules in the fixed order status listing, reassignment, ownership,
    summary, fallback, and the first rule whose trigger holds answers;
    every other rule whose trigger also holds has lower priority and is
    masked. *)
Theorem process_query_priority q st :
  process_query q st = handler (first_match (normalize q)) (normalize q) st /\
  trigger (first_match (normalize q)) (normalize q) = true /\
  (forall r, trigger r (normalize q) = true ->
             r <> first_match (normalize q) ->
             (rank (first_match (normalize q)) < rank r)%nat).
Proof.
  split; [apply process_query_first_match|].
  destruct (first_match_fires (normalize q)) as [T L].
  split; [exact T|].
  intros r Hr Hne.
  destruct (Nat.lt_trichotomy (rank r) (rank (first_match (normalize q))))
    as [H|[H|H]].
  - rewrite (L _ H) in Hr. discriminate.
  - elim Hne. apply rank_inj, H.
  - exact H.
Qed.

(** C8, as stated, fails: this query triggers both the status-listing
    rule and the reassignment rule. *)
Lemma rules_not_mutually_exclusive :
  ~ mutually_exclusive (normalize "assign 1 to bob open tickets").
Proof.
  intros H.
  specialize (H StatusListing Reassignment).
  assert (E : StatusListing = Reassignment).
  { apply H; [discriminate|discriminate|reflexivity|reflexivity]. }
  discriminate E.
Qed.

End Router.

(** ** The status-listing rule *)

Section StatusListing.

Implicit Types (q query s kw : string) (st : store).

Lemma startswith_consumed kw s :
  startswith kw s = true ->
  exists s', strip_prefix kw s = Some s' /\ consumed s s' = kw.
Proof.
  unfold startswith. destruct (strip_prefix kw s) as [s'|] eqn:E;
    [|discriminate].
  intros _. exists s'. split; [reflexivity|].
  rewrite (strip_prefix_inv _ _ _ E). apply consumed_app.
Qed.

Lemma match_at_status s :
  match_at status_re s =
  if startswith "open" s then Some (MatchObj "open" [])
  else if startswith "closed" s then Some (MatchObj "closed" [])
  else if startswith "pending" s then Some (MatchObj "pending" [])
  else None.
Proof.
  unfold match_at, status_re. cbn [rmatch].
  destruct (startswith "open" s) eqn:E1.
  { destruct (startswith_consumed _ _ E1) as (s' & -> & ->). reflexivity. }
  unfold startswith in E1.
  destruct (strip_prefix "open" s); [discriminate|].
  destruct (startswith "closed" s) eqn:E2.
  { destruct (startswith_consumed _ _ E2) as (s' & -> & ->). reflexivity. }
  unfold startswith in E2.
  destruct (strip_prefix "closed" s); [discriminate|].
  destruct (startswith "pending" s) eqn:E3.
  { destruct (startswith_consumed _ _ E3) as (s' & -> & ->). reflexivity. }
  unfold startswith in E3.
  destruct (strip_prefix "pending" s); [discriminate|]. reflexivity.
Qed.

(** [re.search] of the status pattern returns the keyword at the leftmost
    offset where a keyword occurs. *)
Lemma search_status_first : forall s kw0,
  In kw0 status_keywords -> contains kw0 s = true ->
  exists kw i,
    In kw status_keywords /\
    search status_re s = Some (MatchObj kw []) /\
    occurs_at kw i s /\
    (forall j kw', (j < i)%nat -> In kw' status_keywords ->
                   ~ occurs_at kw' j s).
Proof.
  unfold occurs_at.
  induction s as [|c s IH]; intros kw0 Hin Hc.
  - exfalso. simpl in Hin.
    destruct Hin as [<-|[<-|[<-|[]]]]; discriminate Hc.
  - cbn [search]. rewrite match_at_status.
    destruct (startswith "open" (String c s)) eqn:E1.
    { exists "open", 0. simpl In. cbn [drop]. repeat split; auto.
      intros j kw' Hj. lia. }
    destruct (startswith "closed" (String c s)) eqn:E2.
    { exists "closed", 0. simpl In. cbn [drop]. repeat split; auto.
      intros j kw' Hj. lia. }
    destruct (startswith "pending" (String c s)) eqn:E3.
    { exists "pending", 0. simpl In. cbn [drop]. repeat split; auto.
      intros j kw' Hj. lia. }
    assert (Hs : contains kw0 s = true).
    { cbn [contains] in Hc. apply orb_true_iff in Hc.
      destruct Hc as [Hc|Hc]; [|exact Hc]. exfalso. simpl in Hin.
      destruct Hin as [<-|[<-|[<-|[]]]]; congruence. }
    destruct (IH kw0 Hin Hs) as (kw & i & Hkw & Hsearch & Hocc & Hfirst).
    exists kw, (S i). repeat split; auto.
    intros [|j] kw' Hj Hin'.
    + cbn [drop]. simpl in Hin'.
      destruct Hin' as [<-|[<-|[<-|[]]]]; congruence.
    + cbn [drop]. apply Hfirst; [lia|exact Hin'].
Qed.

Lemma status_trigger_keyword query :
  status_trigger query = true ->
  exists kw0, In kw0 status_keywords /\ contains kw0 query = true.
Proof.
  unfold status_trigger. rewrite andb_true_iff, !orb_true_iff.
  intros [_ [[H|H]|H]]; [exists "open"|exists "closed"|exists "pending"];
    simpl; auto.
Qed.

Lemma status_case_listing query kw st :
  search status_re query = Some (MatchObj kw []) ->
  status_case query st = (Ok (listing_response kw st), st).
Proof.
  intros H. unfold status_case, listing_response. rewrite H. cbn [whole].
  destruct (list_tickets_by_status kw (tickets st)); reflexivity.
Qed.

Lemma join_first_char sep a rest :
  first_char (join sep (ticket_line a :: rest)) = Some "T"%char.
Proof. destruct rest; reflexivity. Qed.

Lemma status_case_not_specify query st st' :
  search status_re query <> None ->
  status_case query st <> (Ok specify_status_msg, st').
Proof.
  unfold status_case. destruct (search status_re query) as [m|];
    [intros _|congruence].
  destruct (list_tickets_by_status _ _) as [|a rest] eqn:E;
    intros H; apply (f_equal (fun x => response_first_char (fst x))) in H;
    cbn [response_first_char map fst] in H.
  - discriminate H.
  - rewrite join_first_char in H. discriminate H.
Qed.

Lemma reassign_answer_not_specify id name st st' :
  reassign_answer id name st <> (Ok specify_status_msg, st').
Proof.
  unfold reassign_answer. intros H.
  destruct (get_ticket_by_id id (tickets st)); [|discriminate H].
  destruct (String.eqb _ _); [discriminate H|].
  destruct (update_ticket_assignment _ _ _) as [[u|e] st'']; discriminate H.
Qed.

Lemma assign_case_not_specify query m st st' :
  search assign_re query = Some m ->
  assign_case m st <> (Ok specify_status_msg, st').
Proof.
  intros Hm.
  destruct (assign_re_groups _ _ Hm) as (ds & w & G1 & _ & _ & G2 & _).
  rewrite (assign_case_spec m ds w st G1 G2).
  destruct (int (Some ds)); [apply reassign_answer_not_specify|discriminate].
Qed.

Lemma who_case_not_specify query m st st' :
  search who_re query = Some m ->
  who_case m st <> (Ok specify_status_msg, st').
Proof.
  intros Hm. destruct (who_re_groups _ _ Hm) as (ds & G1 & _).
  rewrite (who_case_spec m ds st G1). unfold who_answer.
  destruct (int (Some ds)); [|discriminate].
  destruct (get_ticket_by_id _ _); discriminate.
Qed.

Lemma summary_case_not_specify query m st st' :
  search summary_re query = Some m ->
  summary_case m st <> (Ok specify_status_msg, st').
Proof.
  intros Hm. destruct (summary_re_groups _ _ Hm) as (ds & G1 & _).
  rewrite (summary_case_spec m ds st G1). unfold summary_answer.
  destruct (int (Some ds)); [|discriminate].
  destruct (get_ticket_by_id _ _); discriminate.
Qed.

(** C9.  Whenever the containment check of the status-listing rule
    passes, the search for the status pattern succeeds and yields one of
    the three keywords, so the rule answers with a listing for it; and no
    query on any store is ever answered with the "Please specify a valid
    ticket status" message: that branch cannot be reached. *)
Theorem status_reextraction_succeeds query st :
  (status_trigger query = true ->
   exists kw,
     In kw status_keywords /\
     search status_re query = Some (MatchObj kw []) /\
     status_case query st = (Ok (listing_response kw st), st)) /\
  (forall q st', process_query q st <> (Ok specify_status_msg, st')).
Proof.
  split.
  - intros H. destruct (status_trigger_keyword _ H) as (kw0 & Hin & Hc).
    destruct (search_status_first _ _ Hin Hc) as (kw & i & Hkw & Hs & _).
    exists kw. repeat split; auto using status_case_listing.
  - intros q st'. unfold process_query.
    destruct (status_trigger (normalize q)) eqn:T.
    { apply status_case_not_specify.
      destruct (status_trigger_keyword _ T) as (kw0 & Hin & Hc).
      destruct (search_status_first _ _ Hin Hc) as (kw & i & _ & Hs & _).
      congruence. }
    destruct (search assign_re (normalize q)) eqn:Ea;
      [eapply assign_case_not_specify, Ea|].
    destruct (search who_re (normalize q)) eqn:Ew;
      [eapply who_case_not_specify, Ew|].
    destruct (search summary_re (normalize q)) eqn:Es;
      [eapply summary_case_not_specify, Es|].
    discriminate.
Qed.

End StatusListing.

(** ** Containment survives normalization *)

Section Containment.

Implicit Types (c : ascii) (s sub q : string) (st : store).

Lemma startswith_cons a sub b s :
  startswith (String a sub) (String b s) =
  Ascii.eqb a b && startswith sub s.
Proof.
  unfold startswith. simpl. destruct (Ascii.eqb a b); reflexivity.
Qed.

Lemma contains_lstrip a sub : forall s,
  is_space a = false ->
  contains (String a sub) s = true ->
  contains (String a sub) (lstrip s) = true.
Proof.
  intros s Ha. induction s as [|c s IH]; intros H; [exact H|].
  cbn [lstrip]. destruct (is_space c) eqn:Hc; [|exact H].
  apply IH. cbn [contains] in H. rewrite startswith_cons in H.
  destruct (Ascii.eqb_spec a c) as [->|_]; [congruence|exact H].
Qed.

Lemma startswith_rstrip : forall sub s,
  sub <> EmptyString -> no_space sub = true ->
  startswith sub s = true -> startswith sub (rstrip s) = true.
Proof.
  unfold no_space.
  induction sub as [|a sub IH]; intros s Hne Hns H; [contradiction|].
  destruct s as [|b s]; [discriminate H|].
  rewrite startswith_cons in H. apply andb_true_iff in H.
  destruct H as [Hab Hs]. apply Ascii.eqb_eq in Hab. subst b.
  cbn [all_in] in Hns. apply andb_true_iff in Hns.
  destruct Hns as [Ha Hns]. apply negb_true_iff in Ha.
  cbn [rstrip]. destruct sub as [|a' sub].
  - destruct (rstrip s); [rewrite Ha|];
      rewrite startswith_cons, Ascii.eqb_refl; reflexivity.
  - assert (E : startswith (String a' sub) (rstrip s) = true).
    { apply IH; [discriminate|exact Hns|exact Hs]. }
    destruct (rstrip s) as [|b r]; [discriminate E|].
    rewrite startswith_cons, Ascii.eqb_refl. exact E.
Qed.

Lemma contains_rstrip sub : forall s,
  sub <> EmptyString -> no_space sub = true ->
  contains sub s = true -> contains sub (rstrip s) = true.
Proof.
  intros s Hne Hns. induction s as [|c s IH]; intros H.
  - exact H.
  - cbn [contains] in H. apply orb_true_iff in H. destruct H as [H|H].
    + apply (startswith_rstrip _ _ Hne Hns) in H.
      destruct (rstrip (String c s)); cbn [contains]; rewrite H; reflexivity.
    + specialize (IH H). cbn [rstrip].
      destruct (rstrip s) as [|b r] eqn:E.
      * destruct sub; [contradiction|discriminate IH].
      * cbn [contains] in *. rewrite IH. apply orb_true_r.
Qed.

Lemma contains_strip sub s :
  sub <> EmptyString -> no_space sub = true ->
  contains sub s = true -> contains sub (strip s) = true.
Proof.
  intros Hne Hns H. unfold strip. apply contains_rstrip; auto.
  destruct sub as [|a sub]; [contradiction|].
  apply contains_lstrip; [|exact H].
  unfold no_space in Hns. cbn [all_in] in Hns.
  apply andb_true_iff in Hns. destruct Hns as [Ha _].
  apply negb_true_iff in Ha. exact Ha.
Qed.

(** C10.  The status-listing trigger is a substring test: whenever the
    lower-cased query contains "tickets" and contains "open", "closed" or
    "pending" anywhere, also inside a longer word, the query is answered
    by the status-listing rule, for the keyword that occurs at the
    leftmost offset of the normalized query where any keyword occurs. *)
Theorem status_listing_by_containment q st :
  contains "tickets" (lower q) = true ->
  contains "open" (lower q) || contains "closed" (lower q) ||
  contains "pending" (lower q) = true ->
  exists kw i,
    In kw status_keywords /\
    occurs_at kw i (normalize q) /\
    (forall j kw', (j < i)%nat -> In kw' status_keywords ->
                   ~ occurs_at kw' j (normalize q)) /\
    process_query q st = (Ok (listing_response kw st), st).
Proof.
  intros Ht Hk.
  assert (T : status_trigger (normalize q) = true).
  { unfold status_trigger, normalize.
    rewrite (contains_strip "tickets") by (try discriminate; auto).
    rewrite !orb_true_iff in Hk. cbn [andb].
    destruct Hk as [[H|H]|H].
    - rewrite (contains_strip "open") by (try discriminate; auto).
      reflexivity.
    - rewrite (contains_strip "closed") by (try discriminate; auto).
      apply orb_true_iff. left. apply orb_true_r.
    - rewrite (contains_strip "pending") by (try discriminate; auto).
      apply orb_true_r. }
  destruct (status_trigger_keyword _ T) as (kw0 & Hin & Hc).
  destruct (search_status_first _ _ Hin Hc) as (kw & i & Hkw & Hs & Ho & Hf).
  exists kw, i. repeat split; auto.
  unfold process_query. rewrite T. apply status_case_listing, Hs.
Qed.

End Containment.

Lemma status_listing_by_containment_witness :
  contains "tickets" (lower "Reopened TICKETS please ") = true /\
  contains "open" (lower "Reopened TICKETS please ") ||
  contains "closed" (lower "Reopened TICKETS please ") ||
  contains "pending" (lower "Reopened TICKETS please ") = true /\
  exists kw i,
    In kw status_keywords /\
    occurs_at kw i (normalize "Reopened TICKETS please ") /\
    (forall j kw', (j < i)%nat -> In kw' status_keywords ->
                   ~ occurs_at kw' j (normalize "Reopened TICKETS please ")) /\
    process_query "Reopened TICKETS please " sample_store =
    (Ok (listing_response kw sample_store), sample_store).
Proof.
  split; [reflexivity|]. split; [reflexivity|].
  apply (status_listing_by_containment "Reopened TICKETS please "
           sample_store); reflexivity.
Defined.

Example reopened_lists_open :
  process_query "Reopened TICKETS please " sample_store =
  (Ok "Tickets 1: Login bug (Assigned to Alice)", sample_store).
Proof. reflexivity. Qed.

(** ** Reassignment to the current owner *)

Section Reassignment.

Implicit Types (q w : string) (st : store) (m : match_obj) (t : ticket).



End Reassignment.


Example sharp_s_run :
  process_query ("assign 1 to " ++ sharp_s) sharp_s_store =
  (Ok "Ticket 1 is now assigned to Ss.",
   Store [Ticket 1 "Login bug" "Cannot log in" "open" "Ss"]
         (json_dump [Ticket 1 "Login bug" "Cannot log in" "open" "Ss"])
         1 always_writable).
Proof. reflexivity. Qed.

(** ** The interactive loop *)

Section InteractiveLoop.

Implicit Types (line : string) (st : store).

Lemma in_sentinels s :
  in_list s sentinels = true <-> s = "exit" \/ s = "quit".
Proof.
  unfold in_list, sentinels. cbn [existsb].
  rewrite !orb_true_iff, !String.eqb_eq. intuition congruence.
Qed.

Lemma loop_body_sentinel line st :
  in_list (lower line) sentinels = true ->
  loop_body line st = (Ok (Terminated, [Line farewell]), st).
Proof. unfold loop_body. intros ->. reflexivity. Qed.

Lemma loop_body_query line st :
  in_list (lower line) sentinels = false ->
  loop_body line st =
  match process_query line st with
  | (Ok resp, st') =>
      (Ok (Running, [Line ("Support Ticket Agent: " ++ resp)]), st')
  | (Raise e, st') => (Raise e, st')
  end.
Proof.
  unfold loop_body, bindM. intros ->.
  destruct (process_query line st) as [[resp|e] st']; reflexivity.
Qed.

(** C7, as the code has it.  An iteration ends the loop with the farewell
    exactly when the line, lower-cased and not trimmed, is "exit" or
    "quit"; the state is untouched and nothing more is read.  Every other
    line, a sentinel with blanks around it included, goes to
    [process_query]: when it returns a response, the response is printed
    after the fixed label and the loop goes on with the rest of the input;
    when it raises, the exception ends the loop. *)
Theorem sentinel_ends_loop line st :
  (ends_loop line st <-> lower line = "exit" \/ lower line = "quit") /\
  (forall rest,
     lower line = "exit" \/ lower line = "quit" ->
     main_loop (line :: rest) st =
     ([Prompt "You: "; Line farewell], st, Ok tt)) /\
  (~ (lower line = "exit" \/ lower line = "quit") ->
   (forall resp st',
      process_query line st = (Ok resp, st') ->
      loop_body line st =
        (Ok (Running, [Line ("Support Ticket Agent: " ++ resp)]), st') /\
      forall rest,
        main_loop (line :: rest) st =
        (let '(out, st'', r) := main_loop rest st' in
         (Prompt "You: " :: Line ("Support Ticket Agent: " ++ resp) :: out,
          st'', r))) /\
   (forall e st',
      process_query line st = (Raise e, st') ->
      loop_body line st = (Raise e, st') /\
      forall rest,
        main_loop (line :: rest) st = ([Prompt "You: "], st', Raise e))).
Proof.
  split; [|split].
  - split.
    + intros H. unfold ends_loop in H.
      destruct (in_list (lower line) sentinels) eqn:E.
      * apply in_sentinels, E.
      * rewrite (loop_body_query _ _ E) in H.
        destruct (process_query line st) as [[resp|e] st']; discriminate H.
    + intros H. apply loop_body_sentinel, in_sentinels, H.
  - intros rest H. cbn [main_loop].
    rewrite loop_body_sentinel by (apply in_sentinels, H). reflexivity.
  - intros N.
    assert (E : in_list (lower line) sentinels = false).
    { apply not_true_is_false. rewrite in_sentinels. exact N. }
    split.
    + intros resp st' Hq.
      assert (Hb : loop_body line st =
                   (Ok (Running, [Line ("Support Ticket Agent: " ++ resp)]),
                    st'))
        by (rewrite (loop_body_query _ _ E), Hq; reflexivity).
      split; [exact Hb|].
      intros rest. cbn [main_loop]. rewrite Hb.
      destruct (main_loop rest st') as [[out st''] r]. reflexivity.
    + intros e st' Hq.
      assert (Hb : loop_body line st = (Raise e, st'))
        by (rewrite (loop_body_query _ _ E), Hq; reflexivity).
      split; [exact Hb|].
      intros rest. cbn [main_loop]. rewrite Hb. reflexivity.
Qed.

(** C7, as stated, fails: " exit" is a sentinel once trimmed, yet the
    iteration does not end the loop; the line is answered by the router's
    fallback. *)
Lemma untrimmed_sentinel_continues :
  ~ (ends_loop " exit" sample_store <-> trimmed_sentinel " exit" = true).
Proof.
  intros [_ H]. specialize (H eq_refl). discriminate H.
Qed.

End InteractiveLoop.

(** ** The scenarios of the specification *)

Example scenario_open_tickets :
  process_query "show me all open tickets" sample_store =
  (Ok "Tickets 1: Login bug (Assigned to Alice)", sample_store).
Proof. reflexivity. Qed.

Example scenario_assign_bob :
  process_query "assign ticket 1 to Bob" sample_store =
  (Ok "Ticket 1 is now assigned to Bob.",
   Store [set_assigned_to login_bug "Bob"; crash]
         (json_dump [set_assigned_to login_bug "Bob"; crash]) 1
         always_writable).
Proof. reflexivity. Qed.

Example scenario_assign_bob_read_only :
  process_query "assign ticket 1 to Bob" read_only_store =
  (Raise OSError,
   Store [set_assigned_to login_bug "Bob"; crash]
         (json_dump [login_bug; crash]) 0 never_writable).
Proof. reflexivity. Qed.

Example scenario_who :
  process_query "who is assigned to ticket 1" sample_store =
  (Ok "Ticket 1 is assigned to Alice.", sample_store).
Proof. reflexivity. Qed.

Example scenario_summary_missing :
  process_query "summarize ticket 99" sample_store =
  (Ok "Ticket 99 not found.", sample_store).
Proof. reflexivity. Qed.

Example scenario_weather :
  process_query "what's the weather" sample_store =
  (Ok fallback_msg, sample_store).
Proof. reflexivity. Qed.

Example masked_reassignment :
  process_query "assign 1 to bob open tickets" sample_store =
  (Ok "Tickets 1: Login bug (Assigned to Alice)", sample_store).
Proof. reflexivity. Qed.

Example untrimmed_exit_run :
  main [" exit"; "EXIT"; "never read"] sample_store =
  ([Line "=== Support Ticket Agent ===";
    Line "Type a question (e.g. 'Show me all open tickets.')";
    Prompt "You: ";
    Line ("Support Ticket Agent: " ++ fallback_msg);
    Prompt "You: ";
    Line farewell],
   sample_store, Ok tt).
Proof. reflexivity. Qed.

(** * Further properties of the program *)

(** ** What a query can do to the state *)

Section QueryEffect.

Local Open Scope list_scope.

Implicit Types (q w ds : string) (st : store) (m : match_obj) (t : ticket).

Lemma digits_value_nonneg s : forall acc,
  (0 <= acc)%Z -> (0 <= digits_value acc s)%Z.
Proof.
  induction s as [|c s IH]; cbn [digits_value]; intros acc H; [exact H|].
  apply IH. unfold digit_value.
  pose proof (Nat2Z.is_nonneg (code c - 48)). lia.
Qed.

Lemma reassign_answer_effect id w st o st' :
  (0 <= id)%Z -> w <> EmptyString -> all_in is_word w = true ->
  reassign_answer id (capitalize w) st = (o, st') ->
  (st' = st /\ o <> Raise OSError) \/ reassigned st st' o.
Proof.
  intros Hid Hw Hww. unfold reassign_answer.
  destruct (get_ticket_by_id id (tickets st)) as [t|] eqn:Ht.
  2:{ intros [= <- <-]. left. split; [reflexivity|discriminate]. }
  destruct (String.eqb_spec (lower (assigned_to t)) (lower (capitalize w)))
    as [_|N].
  { intros [= <- <-]. left. split; [reflexivity|discriminate]. }
  destruct (update_found id (capitalize w) st t Ht)
    as (pre & post & E & Hidt & Hpre & ->).
  intros H. right.
  exists id, w, (capitalize w), t, pre, post.
  destruct (writable st (writes st)) eqn:W; injection H as <- <-;
    cbn [tickets disk writes writable]; repeat split; auto.
Qed.

Lemma process_query_effect q st o st' :
  process_query q st = (o, st') ->
  (st' = st /\ o <> Raise OSError) \/ reassigned st st' o.
Proof.
  unfold process_query.
  destruct (status_trigger (normalize q)).
  { destruct (status_case_ok (normalize q) st) as [resp ->].
    intros [= <- <-]. left. split; [reflexivity|discriminate]. }
  destruct (search assign_re (normalize q)) as [m|] eqn:Ea.
  { destruct (assign_re_groups _ _ Ea)
      as (ds & w & G1 & Hne & Hd & G2 & Hw & Hww).
    rewrite (assign_case_spec m ds w st G1 G2).
    destruct (int_digits ds Hne Hd) as [-> | ->].
    - apply reassign_answer_effect; auto.
      apply digits_value_nonneg. lia.
    - intros [= <- <-]. left. split; [reflexivity|discriminate]. }
  destruct (search who_re (normalize q)) as [m|] eqn:Ew.
  { destruct (who_re_groups _ _ Ew) as (ds & G1 & Hne & Hd).
    rewrite (who_case_spec m ds st G1).
    destruct (int_digits ds Hne Hd) as [-> | ->];
      intros [= <- <-]; left; (split; [reflexivity|discriminate]). }
  destruct (search summary_re (normalize q)) as [m|] eqn:Es.
  { destruct (summary_re_groups _ _ Es) as (ds & G1 & Hne & Hd).
    rewrite (summary_case_spec m ds st G1).
    destruct (int_digits ds Hne Hd) as [-> | ->];
      intros [= <- <-]; left; (split; [reflexivity|discriminate]). }
  intros [= <- <-]. left. split; [reflexivity|discriminate].
Qed.

(** X1.  A query changes the state in one way only.  Whatever the query
    and whatever its outcome, either [process_query] leaves the state it
    was given (collection, file and count of writes) and has not failed
    to write, or it has carried out one reassignment: the id is not
    negative, the first ticket with that id and no other ticket has a new
    assignee, which is the capitalized form of the captured run of word
    characters and differs from the previous assignee up to case.  Then,
    when the file could be written, the answer is "Ticket {id} is now
    assigned to {Name}." and the updated collection has been written to
    the file exactly once; when it could not, the outcome is [OSError],
    no write is counted and the in-memory change stays. *)
Theorem process_query_writes_only_on_reassignment q st o st' :
  process_query q st = (o, st') ->
  (st' = st /\ o <> Raise OSError) \/ reassigned st st' o.
Proof. apply process_query_effect. Qed.

Lemma map_set_assigned {B : Type} (f : ticket -> B) pre t name post :
  f (set_assigned_to t name) = f t ->
  map f (pre ++ set_assigned_to t name :: post) = map f (pre ++ t :: post).
Proof.
  intros H. rewrite !map_app. cbn [map]. rewrite H. reflexivity.
Qed.

(** X2.  No query adds, removes or reorders tickets, and none changes
    the id, the title, the description or the status of a ticket: the
    collection after the query, whatever its outcome, has the same length
    and the same sequence of these four fields as before.  In particular
    ids that were pairwise distinct stay so. *)
Theorem process_query_preserves_records q st o st' :
  process_query q st = (o, st') ->
  List.length (tickets st') = List.length (tickets st) /\
  map ticket_id (tickets st') = map ticket_id (tickets st) /\
  map title (tickets st') = map title (tickets st) /\
  map description (tickets st') = map description (tickets st) /\
  map status (tickets st') = map status (tickets st) /\
  (NoDup (map ticket_id (tickets st)) ->
   NoDup (map ticket_id (tickets st'))).
Proof.
  intros H. destruct (process_query_effect _ _ _ _ H) as [[-> _]|G].
  { repeat split; auto. }
  destruct G as (id & w & name & t & pre & post & _ & _ & _ & _ & E & _ & _
                 & _ & E' & _).
  rewrite E, E'.
  assert (Hid : map ticket_id (pre ++ set_assigned_to t name :: post) =
                map ticket_id (pre ++ t :: post))
    by (apply map_set_assigned; reflexivity).
  repeat split.
  - rewrite !List.length_app. reflexivity.
  - exact Hid.
  - apply map_set_assigned; reflexivity.
  - apply map_set_assigned; reflexivity.
  - apply map_set_assigned; reflexivity.
  - rewrite Hid. auto.
Qed.

End QueryEffect.

Lemma process_query_writes_only_on_reassignment_witness :
  process_query "assign 2 to carol" read_only_store =
    (Raise OSError,
     Store [login_bug; set_assigned_to crash "Carol"]
           (json_dump [login_bug; crash]) 0 never_writable) /\
  ((Store [login_bug; set_assigned_to crash "Carol"]
          (json_dump [login_bug; crash]) 0 never_writable =
    read_only_store /\ @Raise string OSError <> Raise OSError) \/
   reassigned read_only_store
     (Store [login_bug; set_assigned_to crash "Carol"]
            (json_dump [login_bug; crash]) 0 never_writable)
     (Raise OSError)).
Proof.
  split; [reflexivity|].
  apply (process_query_writes_only_on_reassignment "assign 2 to carol"
           read_only_store).
  reflexivity.
Defined.

Lemma process_query_preserves_records_witness :
  process_query "assign 2 to carol" sample_store =
    (Ok "Ticket 2 is now assigned to Carol.",
     Store [login_bug; set_assigned_to crash "Carol"]
           (json_dump [login_bug; set_assigned_to crash "Carol"]) 1
           always_writable) /\
  List.length [login_bug; set_assigned_to crash "Carol"] =
    List.length (tickets sample_store) /\
  map ticket_id [login_bug; set_assigned_to crash "Carol"] =
    map ticket_id (tickets sample_store) /\
  map title [login_bug; set_assigned_to crash "Carol"] =
    map title (tickets sample_store) /\
  map description [login_bug; set_assigned_to crash "Carol"] =
    map description (tickets sample_store) /\
  map status [login_bug; set_assigned_to crash "Carol"] =
    map status (tickets sample_store) /\
  (NoDup (map ticket_id (tickets sample_store)) ->
   NoDup (map ticket_id [login_bug; set_assigned_to crash "Carol"])).
Proof.
  split; [reflexivity|].
  apply (process_query_preserves_records "assign 2 to carol" sample_store
           (Ok "Ticket 2 is now assigned to Carol.")
           (Store [login_bug; set_assigned_to crash "Carol"]
                  (json_dump [login_bug; set_assigned_to crash "Carol"]) 1
                  always_writable)).
  reflexivity.
Defined.

(** ** Looking a ticket up after an update *)

Section UpdateThenRead.

Local Open Scope list_scope.

Implicit Types (id : Z) (who : string) (ts : list ticket) (st : store).

Lemma update_tickets id who st :
  tickets (snd (update_ticket_assignment id who st)) =
  snd (assign_first id who (tickets st)) /\
  fst (update_ticket_assignment id who st) =
  match fst (assign_first id who (tickets st)) with
  | Some updated =>
      if writable st (writes st) then Ok (Some updated) else Raise OSError
  | None => Ok None
  end.
Proof.
  unfold update_ticket_assignment.
  destruct (assign_first id who (tickets st)) as [[t|] ts'];
    [destruct (writable st (writes st))|]; split; reflexivity.
Qed.

Lemma assign_first_get id who id' : forall ts,
  fst (assign_first id who ts) =
    option_map (fun t => set_assigned_to t who) (get_ticket_by_id id ts) /\
  get_ticket_by_id id' (snd (assign_first id who ts)) =
    if (id' =? id)%Z
    then option_map (fun t => set_assigned_to t who) (get_ticket_by_id id ts)
    else get_ticket_by_id id' ts.
Proof.
  induction ts as [|a ts [IH1 IH2]]; cbn [assign_first get_ticket_by_id].
  - split; [reflexivity|]. destruct (id' =? id)%Z; reflexivity.
  - destruct (Z.eqb_spec (ticket_id a) id) as [E|N].
    + cbn [fst snd get_ticket_by_id set_assigned_to ticket_id option_map].
      split; [reflexivity|].
      destruct (Z.eqb_spec id' id) as [->|N'].
      * rewrite E, Z.eqb_refl. reflexivity.
      * destruct (Z.eqb_spec (ticket_id a) id'); [congruence|reflexivity].
    + destruct (assign_first id who ts) as [found rest] eqn:Ea.
      cbn [fst snd get_ticket_by_id] in *.
      split; [exact IH1|].
      destruct (Z.eqb_spec (ticket_id a) id') as [E'|N'].
      * destruct (Z.eqb_spec id' id); [congruence|reflexivity].
      * exact IH2.
Qed.

Lemma assign_first_listing id who wanted : forall ts,
  map ticket_id (list_tickets_by_status wanted (snd (assign_first id who ts))) =
  map ticket_id (list_tickets_by_status wanted ts).
Proof.
  unfold list_tickets_by_status.
  induction ts as [|a ts IH]; cbn [assign_first]; [reflexivity|].
  destruct (ticket_id a =? id)%Z.
  - cbn [snd filter set_assigned_to status].
    destruct (String.eqb _ _); reflexivity.
  - destruct (assign_first id who ts) as [found rest].
    cbn [snd filter] in *.
    destruct (String.eqb _ _); cbn [map]; rewrite IH; reflexivity.
Qed.

(** X3.  Reading after an update.  [update_ticket_assignment] finds
    exactly the ticket [get_ticket_by_id] finds: it returns it with the new
    assignee when the file could be written, raises [OSError] when it
    could not, and returns the absent result when no ticket has the id.
    Afterwards, also when the write failed, a lookup of the same id
    returns the updated ticket, and a lookup of any other id returns what
    it returned before. *)
Theorem get_after_update id who st id' :
  fst (update_ticket_assignment id who st) =
    match get_ticket_by_id id (tickets st) with
    | Some t =>
        if writable st (writes st) then Ok (Some (set_assigned_to t who))
        else Raise OSError
    | None => Ok None
    end /\
  get_ticket_by_id id' (tickets (snd (update_ticket_assignment id who st))) =
    if (id' =? id)%Z
    then option_map (fun t => set_assigned_to t who)
                    (get_ticket_by_id id (tickets st))
    else get_ticket_by_id id' (tickets st).
Proof.
  destruct (update_tickets id who st) as [-> ->].
  destruct (assign_first_get id who id' (tickets st)) as [-> H].
  split; [|exact H].
  destruct (get_ticket_by_id id (tickets st)); reflexivity.
Qed.

(** X4.  A reassignment never moves a ticket into or out of a status
    listing: for every status, the tickets listed after
    [update_ticket_assignment] are the same, in the same order, as
    before. *)
Theorem listing_after_update id who wanted st :
  map ticket_id
    (list_tickets_by_status wanted
       (tickets (snd (update_ticket_assignment id who st)))) =
  map ticket_id (list_tickets_by_status wanted (tickets st)).
Proof.
  destruct (update_tickets id who st) as [-> _].
  apply assign_first_listing.
Qed.

End UpdateThenRead.

(** ** Sessions *)

Section Sessions.

Implicit Types (line q s ds : string) (stdin : list string) (st : store).

Lemma main_final stdin st :
  snd (fst (main stdin st)) = snd (fst (main_loop stdin st)) /\
  snd (main stdin st) = snd (main_loop stdin st).
Proof.
  unfold main. destruct (main_loop stdin st) as [[out st'] r].
  split; reflexivity.
Qed.

(** One iteration on a line that is not a sentinel: the loop goes on from
    the state the query leaves, or ends with the exception it raises. *)
Lemma main_loop_step line rest st :
  is_sentinel line = false ->
  exists o st',
    process_query line st = (o, st') /\
    ((exists resp, o = Ok resp /\
        snd (fst (main_loop (line :: rest) st)) =
          snd (fst (main_loop rest st')) /\
        snd (main_loop (line :: rest) st) = snd (main_loop rest st')) \/
     (exists e, o = Raise e /\
        snd (fst (main_loop (line :: rest) st)) = st' /\
        snd (main_loop (line :: rest) st) = Raise e)).
Proof.
  intros E. cbn [main_loop]. rewrite (loop_body_query _ _ E).
  destruct (process_query line st) as [[resp|e] st'].
  - exists (Ok resp), st'. split; [reflexivity|]. left. exists resp.
    destruct (main_loop rest st') as [[out st''] r]. auto.
  - exists (Raise e), st'. split; [reflexivity|]. right. exists e. auto.
Qed.

Lemma main_loop_sentinel line rest st :
  is_sentinel line = true ->
  snd (fst (main_loop (line :: rest) st)) = st /\
  snd (main_loop (line :: rest) st) = Ok tt.
Proof.
  intros E. cbn [main_loop]. rewrite (loop_body_sentinel _ _ E).
  split; reflexivity.
Qed.

Lemma main_loop_file_current st0 stdin : forall st,
  file_current st0 st ->
  (snd (main_loop stdin st) <> Raise OSError ->
   file_current st0 (snd (fst (main_loop stdin st)))) /\
  (snd (main_loop stdin st) = Raise OSError ->
   writable (snd (fst (main_loop stdin st)))
            (writes (snd (fst (main_loop stdin st)))) = false).
Proof.
  induction stdin as [|line rest IH]; intros st Hs.
  - cbn [main_loop fst snd]. split; [auto|discriminate].
  - destruct (is_sentinel line) eqn:E.
    + destruct (main_loop_sentinel line rest st E) as [-> ->].
      split; [auto|discriminate].
    + destruct (main_loop_step line rest st E)
        as (o & st' & Hq & [(resp & -> & -> & ->)|(e & -> & -> & ->)]).
      * apply IH.
        destruct (process_query_effect _ _ _ _ Hq) as [[-> _]|G];
          [exact Hs|].
        destruct G as (id & w & name & t & pre & post & _ & _ & _ & _ & _
                       & _ & _ & _ & _ & _ & [(_ & _ & Hd & _)|(_ & H & _)]).
        -- right. exact Hd.
        -- discriminate H.
      * destruct (process_query_effect _ _ _ _ Hq) as [[-> Hne]|G].
        -- split; [auto|]. intros H. elim Hne. injection H as ->.
           reflexivity.
        -- destruct G as (id & w & name & t & pre & post & _ & _ & _ & _ & _
                          & _ & _ & _ & _ & Hw
                          & [(_ & H & _)|(Wf & H & Hn)]);
             [discriminate H|].
           injection H as ->. split; [intros N; elim N; reflexivity|].
           intros _. rewrite Hw, Hn. exact Wf.
Qed.

(** X5.  The file keeps up with the memory.  Let a session start in a
    state [st0].  If it does not end with [OSError], then at its end either
    no reassignment was made and the collection and the file are as in
    [st0], or the file holds the dump of the in-memory collection: every
    reassignment made in memory is on disk.  If it ends with [OSError],
    the file could not be written at the last attempt. *)
Theorem session_file_current stdin st0 :
  (snd (main stdin st0) <> Raise OSError ->
   file_current st0 (snd (fst (main stdin st0)))) /\
  (snd (main stdin st0) = Raise OSError ->
   writable (snd (fst (main stdin st0)))
            (writes (snd (fst (main stdin st0)))) = false).
Proof.
  destruct (main_final stdin st0) as [-> ->].
  apply main_loop_file_current. left. split; reflexivity.
Qed.

Lemma length_take n : forall s, (String.length (take n s) <= String.length s)%nat.
Proof.
  induction n as [|n IH]; intros [|c s]; cbn [take String.length]; try lia.
  specialize (IH s). lia.
Qed.

Lemma length_drop i : forall s, (String.length (drop i s) <= String.length s)%nat.
Proof.
  induction i as [|i IH]; intros [|c s]; cbn [drop String.length]; try lia.
  specialize (IH s). lia.
Qed.

Lemma length_lower s : String.length (lower s) = String.length s.
Proof. induction s; cbn [lower String.length]; congruence. Qed.

Lemma length_lstrip s : (String.length (lstrip s) <= String.length s)%nat.
Proof.
  induction s as [|c s IH]; cbn [lstrip]; [lia|].
  destruct (is_space c); cbn [String.length]; lia.
Qed.

Lemma length_rstrip s : (String.length (rstrip s) <= String.length s)%nat.
Proof.
  induction s as [|c s IH]; cbn [rstrip]; [lia|].
  destruct (rstrip s); [destruct (is_space c)|];
    cbn [String.length] in *; lia.
Qed.

Lemma length_normalize q :
  (String.length (normalize q) <= String.length q)%nat.
Proof.
  unfold normalize, strip.
  pose proof (length_rstrip (lstrip (lower q))).
  pose proof (length_lstrip (lower q)).
  rewrite length_lower in *. lia.
Qed.

(** A match consumes input, and what a group captures is a piece of the
    input the match started on. *)
Lemma matches_shorter r s caps s' caps' :
  matches r s caps s' caps' ->
  (String.length s' <= String.length s)%nat /\
  (forall n v, lookup n caps' = Some v ->
               lookup n caps = Some v \/
               (String.length v <= String.length s)%nat).
Proof.
  induction 1 as [l s s' caps Hl|p pre s' caps Hne Hall
                  |a b s caps s1 caps1 s2 caps2 _ [La Ca] _ [Lb Cb]
                  |a b s caps s' caps' _ IH|a b s caps s' caps' _ IH
                  |a s caps s' caps' _ IH|a s caps
                  |n a s caps s' caps' _ [La Ca]].
  - apply strip_prefix_inv in Hl. subst s. rewrite length_app.
    split; [lia|auto].
  - rewrite length_app. split; [lia|auto].
  - split; [lia|]. intros n v Hv.
    destruct (Cb n v Hv) as [H|H]; [|right; lia].
    destruct (Ca n v H) as [H'|H']; [left; exact H'|right; lia].
  - exact IH.
  - exact IH.
  - exact IH.
  - split; [lia|auto].
  - split; [exact La|]. intros k v Hv. cbn [lookup] in Hv.
    destruct (Nat.eqb n k).
    + injection Hv as <-. right. apply length_take.
    + apply Ca, Hv.
Qed.

Lemma group1_shorter r s m ds :
  search r s = Some m -> group 1 m = Some ds ->
  (String.length ds <= String.length s)%nat.
Proof.
  intros Hs G. destruct (search_inv _ _ _ Hs) as (i & Hi & _).
  destruct (match_at_sound _ _ _ Hi) as (s' & caps & M & ->).
  cbn [group groups] in G.
  destruct (matches_shorter _ _ _ _ _ M) as [_ C].
  destruct (C 1 ds G) as [H|H]; [discriminate H|].
  pose proof (length_drop i s). lia.
Qed.

Lemma captured_id_shorter q ds :
  captured_id (normalize q) = Some ds ->
  (String.length ds <= String.length q)%nat.
Proof.
  unfold captured_id. pose proof (length_normalize q) as L.
  destruct (status_trigger (normalize q)); [discriminate|].
  destruct (search assign_re (normalize q)) eqn:Ea.
  { intros G. pose proof (group1_shorter _ _ _ _ Ea G). lia. }
  destruct (search who_re (normalize q)) eqn:Ew.
  { intros G. pose proof (group1_shorter _ _ _ _ Ew G). lia. }
  destruct (search summary_re (normalize q)) eqn:Es; [|discriminate].
  intros G. pose proof (group1_shorter _ _ _ _ Es G). lia.
Qed.

Lemma process_query_keeps_env q st o st' :
  process_query q st = (o, st') -> writable st' = writable st.
Proof.
  intros H. destruct (process_query_effect _ _ _ _ H) as [[-> _]|G];
    [reflexivity|].
  destruct G as (id & w & name & t & pre & post & _ & _ & _ & _ & _
                 & _ & _ & _ & _ & Hw & _). exact Hw.
Qed.

Lemma main_loop_outcomes stdin : forall st,
  snd (main_loop stdin st) = Ok tt \/
  snd (main_loop stdin st) = Raise EOFError \/
  snd (main_loop stdin st) = Raise ValueError \/
  snd (main_loop stdin st) = Raise OSError.
Proof.
  induction stdin as [|line rest IH]; intros st.
  - cbn [main_loop snd]. auto.
  - destruct (is_sentinel line) eqn:E.
    + destruct (main_loop_sentinel line rest st E) as [_ ->]. auto.
    + destruct (main_loop_step line rest st E)
        as (o & st' & Hq & [(resp & -> & _ & ->)|(e & -> & _ & ->)]).
      * apply IH.
      * destruct (process_query_outcome line st) as (o & st'' & Hq' & Ho).
        rewrite Hq in Hq'. injection Hq' as <- _.
        destruct Ho as [[resp H]|[H|H]]; [discriminate H| |];
          injection H as ->; auto.
Qed.

Lemma main_loop_sentinel_needed stdin : forall st,
  (snd (main_loop stdin st) = Ok tt -> existsb is_sentinel stdin = true) /\
  (snd (main_loop stdin st) = Raise EOFError ->
   existsb is_sentinel stdin = false).
Proof.
  induction stdin as [|line rest IH]; intros st.
  - cbn [main_loop snd existsb]. split; [discriminate|reflexivity].
  - cbn [existsb]. destruct (is_sentinel line) eqn:E.
    + destruct (main_loop_sentinel line rest st E) as [_ ->].
      split; [reflexivity|discriminate].
    + destruct (main_loop_step line rest st E)
        as (o & st' & Hq & [(resp & -> & _ & ->)|(e & -> & _ & ->)]).
      * apply IH.
      * split; [discriminate|]. intros H. injection H as ->.
        destruct (process_query_outcome line st) as (o & st'' & Hq' & Ho).
        rewrite Hq in Hq'. injection Hq' as <- _.
        destruct Ho as [[resp H]|[H|H]]; discriminate H.
Qed.

Lemma main_loop_outcome stdin : forall st,
  (forall line, In line stdin ->
                (String.length line <= int_max_str_digits)%nat) ->
  (forall n, writable st n = true) ->
  snd (main_loop stdin st) =
  if existsb is_sentinel stdin then Ok tt else Raise EOFError.
Proof.
  induction stdin as [|line rest IH]; intros st Hlen W.
  - reflexivity.
  - cbn [existsb]. destruct (is_sentinel line) eqn:E.
    + destruct (main_loop_sentinel line rest st E) as [_ ->]. reflexivity.
    + assert (Hok : exists resp st', process_query line st = (Ok resp, st')).
      { apply process_query_ok; [|apply W].
        intros ds Hds. pose proof (captured_id_shorter _ _ Hds).
        pose proof (Hlen line (or_introl eq_refl)). lia. }
      destruct Hok as (resp & st' & Hq).
      destruct (main_loop_step line rest st E)
        as (o & st'' & Hq' & [(resp' & -> & _ & ->)|(e & -> & _ & _)]);
        rewrite Hq in Hq'; [|discriminate Hq'].
      injection Hq' as _ <-. apply IH.
      * intros l Hl. apply Hlen. right. exact Hl.
      * intros n. rewrite (process_query_keeps_env _ _ _ _ Hq). apply W.
Qed.

(** X6.  How a session ends.  [main] ends normally, after the farewell,
    only if some input line is "exit" or "quit" up to case, and with
    [EOFError] only if none is.  The only other ways it can end are the
    [ValueError] of an id with more than 4300 digits and the [OSError] of
    a failed write.  When no input line is longer than 4300 characters and
    the file can always be written, it ends normally exactly when some
    line is a sentinel, and with [EOFError] otherwise. *)
Theorem main_outcome stdin st :
  (snd (main stdin st) = Ok tt \/
   snd (main stdin st) = Raise EOFError \/
   snd (main stdin st) = Raise ValueError \/
   snd (main stdin st) = Raise OSError) /\
  (snd (main stdin st) = Ok tt -> existsb is_sentinel stdin = true) /\
  (snd (main stdin st) = Raise EOFError ->
   existsb is_sentinel stdin = false) /\
  ((forall line, In line stdin ->
                 (String.length line <= int_max_str_digits)%nat) ->
   (forall n, writable st n = true) ->
   snd (main stdin st) =
   if existsb is_sentinel stdin then Ok tt else Raise EOFError).
Proof.
  destruct (main_final stdin st) as [_ ->].
  split; [apply main_loop_outcomes|].
  split; [apply main_loop_sentinel_needed|].
  split; [apply main_loop_sentinel_needed|].
  apply main_loop_outcome.
Qed.

Lemma main_loop_stops pre line rest : forall st,
  is_sentinel line = true ->
  main_loop (pre ++ line :: rest) st = main_loop (pre ++ [line]) st.
Proof.
  induction pre as [|a pre IH]; intros st Hl; cbn [app main_loop].
  - rewrite (loop_body_sentinel _ _ Hl). reflexivity.
  - destruct (loop_body a st) as [[[[|] out]|e] st']; try reflexivity.
    rewrite (IH st' Hl). reflexivity.
Qed.

(** X7.  Nothing is read after a sentinel.  Whatever follows a line that
    is "exit" or "quit" up to case has no effect on the session: the
    output, the final state and the outcome are those of the input cut
    after that line. *)
Theorem main_stops_at_sentinel pre line rest st :
  is_sentinel line = true ->
  main (pre ++ line :: rest) st = main (pre ++ [line]) st.
Proof.
  intros H. unfold main. rewrite (main_loop_stops pre line rest st H).
  reflexivity.
Qed.

End Sessions.

Example session_read_only :
  main ["assign 2 to carol"; "quit"] read_only_store =
  ([Line "=== Support Ticket Agent ===";
    Line "Type a question (e.g. 'Show me all open tickets.')";
    Prompt "You: "],
   Store [login_bug; set_assigned_to crash "Carol"]
         (json_dump [login_bug; crash]) 0 never_writable,
   Raise OSError).
Proof. reflexivity. Qed.

Lemma main_stops_at_sentinel_witness :
  is_sentinel "Quit" = true /\
  main (["assign 2 to carol"] ++ "Quit" :: ["assign 1 to dave"])
       sample_store =
  main (["assign 2 to carol"] ++ ["Quit"]) sample_store.
Proof.
  split; [reflexivity|].
  apply (main_stops_at_sentinel ["assign 2 to carol"] "Quit"
           ["assign 1 to dave"] sample_store).
  reflexivity.
Defined.

(** ** Repeating a reassignment *)

Section ReassignTwice.

Implicit Types (q w : string) (st : store) (m : match_obj) (t : ticket).

(** X8.  A reassignment is settled by its first call.  Take a query handled
    by the reassignment rule whose id is that of an existing ticket and
    whose capitalized name differs from the current assignee up to case,
    in a state where the file can be written.  The first call answers
    "Ticket {id} is now assigned to {Name}.", writes the file once, and
    leaves the ticket found under that id with the capitalized name as
    assignee; the same query asked again answers "Ticket {id} is already
    assigned to {Name}." and changes nothing. *)
Theorem reassign_then_repeat q st m id w t :
  status_trigger (normalize q) = false ->
  search assign_re (normalize q) = Some m ->
  int (group 1 m) = Ok id ->
  group 2 m = Some w ->
  latin1_capital w = true ->
  get_ticket_by_id id (tickets st) = Some t ->
  ~ eq_nocase (assigned_to t) (capitalize w) ->
  writable st (writes st) = true ->
  exists st',
    process_query q st = (Ok (now_assigned_msg id (capitalize w)), st') /\
    writes st' = S (writes st) /\
    get_ticket_by_id id (tickets st') =
      Some (set_assigned_to t (capitalize w)) /\
    process_query q st' = (Ok (already_assigned_msg id (capitalize w)), st').
Proof.
  intros T Hm Hid Hw _ Ht Hne W.
  assert (Hq : forall s, process_query q s = assign_case m s).
  { intros s. unfold process_query. rewrite T, Hm. reflexivity. }
  destruct (update_found id (capitalize w) st t Ht)
    as (pre & post & E & Hidt & Hpre & Hu).
  rewrite W in Hu.
  eexists. rewrite !Hq. split; [|split; [|split]].
  - unfold assign_case, bindM, pure, ret. rewrite Hid, Hw.
    cbn [capitalize_group]. rewrite Ht.
    destruct (String.eqb_spec (lower (assigned_to t)) (lower (capitalize w)))
      as [E'|_]; [contradiction|].
    rewrite Hu. reflexivity.
  - reflexivity.
  - cbn [tickets]. apply get_ticket_by_id_first; [exact Hidt|exact Hpre].
  - unfold assign_case, bindM, pure, ret. rewrite Hid, Hw.
    cbn [capitalize_group tickets].
    rewrite get_ticket_by_id_first by (cbn; assumption).
    cbn [assigned_to set_assigned_to]. rewrite String.eqb_refl. reflexivity.
Qed.

End ReassignTwice.

Lemma reassign_then_repeat_witness :
  status_trigger (normalize "Assign 2 to carol") = false /\
  search assign_re (normalize "Assign 2 to carol") =
    Some (MatchObj "assign 2 to carol" [(2, "carol"); (1, "2")]) /\
  int (group 1 (MatchObj "assign 2 to carol" [(2, "carol"); (1, "2")])) =
    Ok 2%Z /\
  group 2 (MatchObj "assign 2 to carol" [(2, "carol"); (1, "2")]) =
    Some "carol" /\
  latin1_capital "carol" = true /\
  get_ticket_by_id 2 (tickets sample_store) = Some crash /\
  ~ eq_nocase (assigned_to crash) (capitalize "carol") /\
  writable sample_store (writes sample_store) = true /\
  exists st',
    process_query "Assign 2 to carol" sample_store =
      (Ok (now_assigned_msg 2 (capitalize "carol")), st') /\
    writes st' = S (writes sample_store) /\
    get_ticket_by_id 2 (tickets st') =
      Some (set_assigned_to crash (capitalize "carol")) /\
    process_query "Assign 2 to carol" st' =
      (Ok (already_assigned_msg 2 (capitalize "carol")), st').
Proof.
  assert (N : ~ eq_nocase (assigned_to crash) (capitalize "carol"))
    by (unfold eq_nocase; simpl; discriminate).
  repeat (split; [reflexivity|]).
  split; [exact N|].
  split; [reflexivity|].
  apply (reassign_then_repeat "Assign 2 to carol" sample_store
           (MatchObj "assign 2 to carol" [(2, "carol"); (1, "2")])
           2%Z "carol" crash); try reflexivity.
  exact N.
Defined.

(** ** Case and surrounding blanks of a query *)

Section Normalization.

Implicit Types (c : ascii) (s ws q : string) (st : store).

Lemma is_space_lower_char c : is_space (lower_char c) = is_space c.
Proof. destruct c as [[] [] [] [] [] [] [] []]; reflexivity. Qed.

Lemma all_space_lower ws : all_in is_space (lower ws) = all_in is_space ws.
Proof.
  induction ws as [|c ws IH]; simpl; [reflexivity|].
  rewrite is_space_lower_char, IH. reflexivity.
Qed.

Lemma lstrip_spaces ws s : all_in is_space ws = true -> lstrip (ws ++ s) = lstrip s.
Proof.
  induction ws as [|c ws IH]; simpl; [reflexivity|].
  intros H. apply andb_true_iff in H. destruct H as [-> H]. auto.
Qed.

Lemma lstrip_all_spaces ws :
  all_in is_space ws = true -> lstrip ws = EmptyString.
Proof.
  induction ws as [|c ws IH]; simpl; [reflexivity|].
  intros H. apply andb_true_iff in H. destruct H as [-> H]. auto.
Qed.

Lemma rstrip_spaces ws : all_in is_space ws = true -> rstrip ws = EmptyString.
Proof.
  induction ws as [|c ws IH]; simpl; [reflexivity|].
  intros H. apply andb_true_iff in H. destruct H as [-> H].
  rewrite IH by exact H. reflexivity.
Qed.

Lemma rstrip_app_spaces ws : all_in is_space ws = true ->
  forall s, rstrip (s ++ ws) = rstrip s.
Proof.
  intros H. induction s as [|c s IH]; simpl.
  - apply rstrip_spaces, H.
  - rewrite IH. reflexivity.
Qed.

Lemma strip_app_spaces ws : all_in is_space ws = true ->
  forall s, strip (s ++ ws) = strip s.
Proof.
  intros H. unfold strip. induction s as [|c s IH].
  - cbn [append lstrip rstrip]. rewrite (lstrip_all_spaces ws H).
    reflexivity.
  - cbn [append lstrip]. destruct (is_space c); [exact IH|].
    apply (rstrip_app_spaces ws H (String c s)).
Qed.

Lemma normalize_padded ws1 ws2 q :
  all_in is_space ws1 = true -> all_in is_space ws2 = true ->
  normalize (ws1 ++ q ++ ws2) = normalize q.
Proof.
  intros H1 H2. unfold normalize, strip. rewrite !lower_app.
  rewrite lstrip_spaces by (rewrite all_space_lower; exact H1).
  apply (strip_app_spaces (lower ws2)). rewrite all_space_lower. exact H2.
Qed.

(** X9.  The router ignores the letter case of a query and the blanks
    around it: a query padded with any blank characters on either side
    gets the same answer and has the same effect as any query that equals
    it up to case. *)
Theorem process_query_ignores_case_and_padding ws1 ws2 q1 q2 st :
  all_in is_space ws1 = true ->
  all_in is_space ws2 = true ->
  eq_nocase q1 q2 ->
  process_query (ws1 ++ q1 ++ ws2) st = process_query q2 st.
Proof.
  intros H1 H2 E. unfold process_query.
  rewrite (normalize_padded ws1 ws2 q1 H1 H2).
  unfold normalize. unfold eq_nocase in E. rewrite E. reflexivity.
Qed.

End Normalization.

Lemma process_query_ignores_case_and_padding_witness :
  all_in is_space "  " = true /\
  all_in is_space " " = true /\
  eq_nocase "Summarize TICKET 1" "summarize ticket 1" /\
  process_query ("  " ++ "Summarize TICKET 1" ++ " ") sample_store =
  process_query "summarize ticket 1" sample_store.
Proof.
  repeat (split; [reflexivity|]).
  apply (process_query_ignores_case_and_padding "  " " "
           "Summarize TICKET 1" "summarize ticket 1" sample_store);
    reflexivity.
Defined.

(** ** The documented query shapes *)

Section QueryShapes.

Implicit Types (c a d : ascii) (s l ds w q : string) (st : store).

Lemma strip_prefix_app l s : strip_prefix l (l ++ s) = Some s.
Proof. induction l; simpl; [|rewrite Ascii.eqb_refl]; auto. Qed.

Lemma consumed_all s : consumed s EmptyString = s.
Proof.
  unfold consumed. cbn [String.length]. rewrite Nat.sub_0_r.
  induction s as [|c s IH]; cbn [String.length take]; congruence.
Qed.

Lemma contains_all_digits a l : forall ds,
  is_digit a = false -> all_in is_digit ds = true ->
  contains (String a l) ds = false.
Proof.
  intros ds Ha. induction ds as [|d ds IH]; intros H; [reflexivity|].
  cbn [all_in] in H. apply andb_true_iff in H. destruct H as [Hd H].
  cbn [contains]. rewrite startswith_cons, (IH H).
  destruct (Ascii.eqb_spec a d) as [->|_]; [congruence|reflexivity].
Qed.

Lemma contains_after_digits a l rest : forall ds,
  is_digit a = false -> all_in is_digit ds = true ->
  contains (String a l) (ds ++ rest) = contains (String a l) rest.
Proof.
  intros ds Ha. induction ds as [|d ds IH]; intros H; [reflexivity|].
  cbn [all_in] in H. apply andb_true_iff in H. destruct H as [Hd H].
  cbn [append contains]. rewrite startswith_cons, (IH H).
  destruct (Ascii.eqb_spec a d) as [->|_]; [congruence|reflexivity].
Qed.

Lemma search_needs_literal l r : forall s,
  contains l s = false -> search (Seq (Lit l) r) s = None.
Proof.
  assert (M : forall s, startswith l s = false ->
                        match_at (Seq (Lit l) r) s = None).
  { intros s H. unfold match_at. cbn [rmatch]. unfold startswith in H.
    destruct (strip_prefix l s); [discriminate|reflexivity]. }
  induction s as [|c s IH]; cbn [contains search]; intros H.
  - rewrite orb_false_r in H. rewrite (M _ H). reflexivity.
  - apply orb_false_iff in H. destruct H as [H1 H2].
    rewrite (M _ H1). apply IH, H2.
Qed.

Lemma search_assign_none s :
  contains "assign " s = false -> search assign_re s = None.
Proof. apply search_needs_literal. Qed.

Lemma search_who_none s :
  contains "who " s = false -> search who_re s = None.
Proof. apply search_needs_literal. Qed.

Lemma rep1_prefix {A : Type} p rest (k : string -> option A) r : forall pre,
  all_in p pre = true -> pre <> EmptyString ->
  (forall c rest', rest = String c rest' -> p c = false) ->
  k rest = Some r ->
  rep1 p (pre ++ rest) k = Some r.
Proof.
  induction pre as [|c pre IH]; intros Hall Hne Hrest Hk; [contradiction|].
  cbn [all_in] in Hall. apply andb_true_iff in Hall. destruct Hall as [Hc Hall].
  cbn [append rep1]. rewrite Hc.
  destruct pre as [|c' pre].
  - cbn [append]. destruct rest as [|b rest'].
    + cbn [rep1]. exact Hk.
    + cbn [rep1]. rewrite (Hrest b rest' eq_refl). exact Hk.
  - rewrite IH; auto. discriminate.
Qed.

Lemma rep1_all {A : Type} p ds (k : string -> option A) r :
  all_in p ds = true -> ds <> EmptyString ->
  k EmptyString = Some r ->
  rep1 p ds k = Some r.
Proof.
  intros Hall Hne Hk.
  assert (E : ds = ds ++ EmptyString) by (clear; induction ds; simpl; congruence).
  rewrite E at 1. apply rep1_prefix; auto. discriminate.
Qed.

Lemma search_at_head r s m : match_at r s = Some m -> search r s = Some m.
Proof. intros H. destruct s; cbn [search]; rewrite H; reflexivity. Qed.

Lemma summary_match ds :
  ds <> EmptyString -> all_digits ds = true ->
  search summary_re ("summarize ticket " ++ ds) =
  Some (MatchObj ("summarize ticket " ++ ds) [(1, ds)]).
Proof.
  intros Hne H. apply search_at_head. unfold match_at, summary_re.
  cbn [rmatch]. rewrite strip_prefix_app.
  apply rep1_all; auto. rewrite !consumed_all. reflexivity.
Qed.

Lemma who_match_assigned ds :
  ds <> EmptyString -> all_digits ds = true ->
  search who_re ("who is assigned to ticket " ++ ds) =
  Some (MatchObj ("who is assigned to ticket " ++ ds) [(1, ds)]).
Proof.
  intros Hne H. apply search_at_head. unfold match_at, who_re.
  change ("who is assigned to ticket " ++ ds)
    with ("who " ++ "is assigned to" ++ " ticket " ++ ds) at 1.
  cbn [rmatch]. rewrite strip_prefix_app.
  replace (strip_prefix "is working on" ("is assigned to" ++ " ticket " ++ ds))
    with (@None string) by reflexivity.
  rewrite !strip_prefix_app.
  apply rep1_all; auto. rewrite !consumed_all. reflexivity.
Qed.

Lemma who_match_working ds :
  ds <> EmptyString -> all_digits ds = true ->
  search who_re ("who is working on ticket " ++ ds) =
  Some (MatchObj ("who is working on ticket " ++ ds) [(1, ds)]).
Proof.
  intros Hne H. apply search_at_head. unfold match_at, who_re.
  change ("who is working on ticket " ++ ds)
    with ("who " ++ "is working on" ++ " ticket " ++ ds) at 1.
  cbn [rmatch]. rewrite !strip_prefix_app.
  erewrite rep1_all; eauto. rewrite !consumed_all. reflexivity.
Qed.

(** X10.  The ownership queries.  A query that normalizes to "who is
    assigned to ticket N" or to "who is working on ticket N", N a
    non-empty run of digits, is handled by the ownership rule.  When N has
    at most 4300 digits the answer is that of the ticket whose id is the
    value of N (leading zeros ignored): "Ticket {id} is assigned to
    {owner}." when the ticket exists, "Ticket {id} not found." otherwise.
    When N has more digits the query raises [ValueError].  The state is
    unchanged in both cases. *)
Theorem who_query_answer q ds st :
  normalize q = "who is assigned to ticket " ++ ds \/
  normalize q = "who is working on ticket " ++ ds ->
  ds <> EmptyString ->
  all_digits ds = true ->
  process_query q st =
  if (String.length ds <=? int_max_str_digits)%nat
  then (Ok (who_answer (digits_value 0 ds) st), st)
  else (Raise ValueError, st).
Proof.
  intros Hq Hne H. unfold process_query.
  assert (R : forall m, group 1 m = Some ds ->
                who_case m st =
                if (String.length ds <=? int_max_str_digits)%nat
                then (Ok (who_answer (digits_value 0 ds) st), st)
                else (Raise ValueError, st)).
  { intros m G. rewrite (who_case_spec m ds st G).
    destruct (Nat.leb_spec (String.length ds) int_max_str_digits).
    - rewrite int_short by assumption. reflexivity.
    - rewrite int_long by assumption. reflexivity. }
  destruct Hq as [-> | ->].
  - replace (status_trigger ("who is assigned to ticket " ++ ds)) with false
      by (unfold status_trigger; cbn;
          rewrite contains_all_digits by (auto; reflexivity); reflexivity).
    rewrite search_assign_none
      by (cbn; apply contains_all_digits; auto).
    rewrite who_match_assigned by assumption. apply R. reflexivity.
  - replace (status_trigger ("who is working on ticket " ++ ds)) with false
      by (unfold status_trigger; cbn;
          rewrite contains_all_digits by (auto; reflexivity); reflexivity).
    rewrite search_assign_none
      by (cbn; apply contains_all_digits; auto).
    rewrite who_match_working by assumption. apply R. reflexivity.
Qed.

(** X11.  The summary query.  A query that normalizes to "summarize ticket
    N", N a non-empty run of digits, is handled by the summary rule.  When
    N has at most 4300 digits the answer is that of the ticket whose id is
    the value of N: the five-line summary when the ticket exists, "Ticket
    {id} not found." otherwise.  When N has more digits the query raises
    [ValueError].  The state is unchanged in both cases. *)
Theorem summarize_query_answer q ds st :
  normalize q = "summarize ticket " ++ ds ->
  ds <> EmptyString ->
  all_digits ds = true ->
  process_query q st =
  if (String.length ds <=? int_max_str_digits)%nat
  then (Ok (summary_answer (digits_value 0 ds) st), st)
  else (Raise ValueError, st).
Proof.
  intros Hq Hne H. unfold process_query. rewrite Hq.
  replace (status_trigger ("summarize ticket " ++ ds)) with false
    by (unfold status_trigger; cbn;
        rewrite contains_all_digits by (auto; reflexivity); reflexivity).
  rewrite search_assign_none
    by (cbn; apply contains_all_digits; auto).
  rewrite search_who_none
    by (cbn; apply contains_all_digits; auto).
  rewrite summary_match by assumption.
  erewrite summary_case_spec by reflexivity.
  destruct (Nat.leb_spec (String.length ds) int_max_str_digits).
  - rewrite int_short by assumption. reflexivity.
  - rewrite int_long by assumption. reflexivity.
Qed.

Lemma rmatch_lit {A : Type} l s caps (k : string -> captures -> option A) :
  rmatch (Lit l) (l ++ s) caps k = k s caps.
Proof. cbn [rmatch]. rewrite strip_prefix_app. reflexivity. Qed.

Lemma rmatch_opt_lit_take {A : Type} l s caps
  (k : string -> captures -> option A) r :
  k s caps = Some r -> rmatch (Opt (Lit l)) (l ++ s) caps k = Some r.
Proof. intros H. cbn [rmatch]. rewrite strip_prefix_app, H. reflexivity. Qed.

Lemma rmatch_opt_lit_skip {A : Type} l s caps
  (k : string -> captures -> option A) :
  startswith l s = false -> rmatch (Opt (Lit l)) s caps k = k s caps.
Proof.
  unfold startswith. intros H. cbn [rmatch].
  destruct (strip_prefix l s); [discriminate|reflexivity].
Qed.

Lemma rmatch_grp_rep1 {A : Type} n p pre rest caps
  (k : string -> captures -> option A) r :
  all_in p pre = true -> pre <> EmptyString ->
  (forall c rest', rest = String c rest' -> p c = false) ->
  k rest ((n, pre) :: caps) = Some r ->
  rmatch (Grp n (Rep1 p)) (pre ++ rest) caps k = Some r.
Proof.
  intros Hall Hne Hrest Hk. cbn [rmatch].
  apply rep1_prefix; auto. rewrite consumed_app. exact Hk.
Qed.

Lemma rmatch_grp_rep1_all {A : Type} n p pre caps
  (k : string -> captures -> option A) r :
  all_in p pre = true -> pre <> EmptyString ->
  k EmptyString ((n, pre) :: caps) = Some r ->
  rmatch (Grp n (Rep1 p)) pre caps k = Some r.
Proof.
  intros Hall Hne Hk. cbn [rmatch].
  apply rep1_all; auto. rewrite consumed_all. exact Hk.
Qed.

Lemma startswith_digits a l ds rest :
  is_digit a = false -> ds <> EmptyString -> all_in is_digit ds = true ->
  startswith (String a l) (ds ++ rest) = false.
Proof.
  intros Ha Hne H. destruct ds as [|d ds]; [contradiction|].
  cbn [all_in] in H. apply andb_true_iff in H. destruct H as [Hd _].
  cbn [append]. rewrite startswith_cons.
  destruct (Ascii.eqb_spec a d) as [->|_]; [congruence|reflexivity].
Qed.

Lemma assign_match_before o1 ds o2 w rest :
  o1 = EmptyString \/ o1 = "ticket " ->
  o2 = EmptyString \/ o2 = " ticket" ->
  ds <> EmptyString -> all_digits ds = true ->
  w <> EmptyString -> all_in is_word w = true ->
  (forall c rest', rest = String c rest' -> is_word c = false) ->
  search assign_re ("assign " ++ o1 ++ ds ++ o2 ++ " to " ++ w ++ rest) =
  Some (MatchObj
          (consumed ("assign " ++ o1 ++ ds ++ o2 ++ " to " ++ w ++ rest) rest)
          [(2, w); (1, ds)]).
Proof.
  intros H1 H2 Hne Hd Hw Hww Hrest. apply search_at_head.
  unfold match_at, assign_re.
  set (whole_text := "assign " ++ o1 ++ ds ++ o2 ++ " to " ++ w ++ rest)
    at 2 3.
  assert (Tail : forall caps,
             rmatch (Seq (Opt (Lit " ticket"))
                      (Seq (Lit " to ") (Grp 2 (Rep1 is_word))))
               (o2 ++ " to " ++ w ++ rest) ((1, ds) :: caps)
               (fun s' caps' =>
                  Some (MatchObj (consumed whole_text s') caps')) =
             Some (MatchObj (consumed whole_text rest)
                            ((2, w) :: (1, ds) :: caps))).
  { intros caps. change (rmatch (Seq ?a ?b) ?s ?c ?k)
      with (rmatch a s c (fun s' caps' => rmatch b s' caps' k)).
    assert (Last : rmatch (Seq (Lit " to ") (Grp 2 (Rep1 is_word)))
                     (" to " ++ w ++ rest) ((1, ds) :: caps)
                     (fun s' caps' =>
                        Some (MatchObj (consumed whole_text s') caps')) =
                   Some (MatchObj (consumed whole_text rest)
                                  ((2, w) :: (1, ds) :: caps))).
    { change (rmatch (Seq ?a ?b) ?s ?c ?k)
        with (rmatch a s c (fun s' caps' => rmatch b s' caps' k)).
      rewrite rmatch_lit. apply rmatch_grp_rep1; auto. }
    destruct H2 as [-> | ->].
    - cbn [append]. rewrite rmatch_opt_lit_skip by reflexivity. exact Last.
    - apply rmatch_opt_lit_take. exact Last. }
  assert (Digits : rmatch (Seq (Grp 1 (Rep1 is_digit))
                             (Seq (Opt (Lit " ticket"))
                                (Seq (Lit " to ") (Grp 2 (Rep1 is_word)))))
                     (ds ++ o2 ++ " to " ++ w ++ rest) []
                     (fun s' caps' =>
                        Some (MatchObj (consumed whole_text s') caps')) =
                   Some (MatchObj (consumed whole_text rest)
                                  [(2, w); (1, ds)])).
  { change (rmatch (Seq ?a ?b) ?s ?c ?k)
      with (rmatch a s c (fun s' caps' => rmatch b s' caps' k)).
    apply rmatch_grp_rep1; [exact Hd|exact Hne| |apply Tail].
    intros c rest' E.
    destruct H2 as [-> | ->]; cbn [append] in E; injection E as <- _;
      reflexivity. }
  change (rmatch (Seq ?a ?b) ?s ?c ?k)
    with (rmatch a s c (fun s' caps' => rmatch b s' caps' k)).
  rewrite rmatch_lit.
  change (rmatch (Seq ?a ?b) ?s ?c ?k)
    with (rmatch a s c (fun s' caps' => rmatch b s' caps' k)).
  destruct H1 as [-> | ->].
  - cbn [append].
    rewrite rmatch_opt_lit_skip
      by (apply startswith_digits; auto; reflexivity).
    exact Digits.
  - apply rmatch_opt_lit_take. exact Digits.
Qed.

Lemma append_empty s : s ++ EmptyString = s.
Proof. induction s; simpl; congruence. Qed.

Lemma assign_match o1 ds o2 w :
  o1 = EmptyString \/ o1 = "ticket " ->
  o2 = EmptyString \/ o2 = " ticket" ->
  ds <> EmptyString -> all_digits ds = true ->
  w <> EmptyString -> all_in is_word w = true ->
  search assign_re ("assign " ++ o1 ++ ds ++ o2 ++ " to " ++ w) =
  Some (MatchObj ("assign " ++ o1 ++ ds ++ o2 ++ " to " ++ w)
                 [(2, w); (1, ds)]).
Proof.
  intros H1 H2 Hne Hd Hw Hww.
  pose proof (assign_match_before o1 ds o2 w EmptyString H1 H2 Hne Hd Hw Hww)
    as M.
  rewrite append_empty, consumed_all in M. apply M. discriminate.
Qed.

Lemma assign_case_answer whole_text ds w st :
  ds <> EmptyString -> all_digits ds = true ->
  (String.length ds <= int_max_str_digits)%nat ->
  assign_case (MatchObj whole_text [(2, w); (1, ds)]) st =
  reassign_answer (digits_value 0 ds) (capitalize w) st.
Proof.
  intros Hne Hd Hlen.
  erewrite assign_case_spec by reflexivity.
  rewrite int_short by assumption. reflexivity.
Qed.

Lemma assign_shape_no_listing o1 ds o2 w :
  o1 = EmptyString \/ o1 = "ticket " ->
  o2 = EmptyString \/ o2 = " ticket" ->
  all_digits ds = true ->
  contains "tickets" w = false ->
  status_trigger ("assign " ++ o1 ++ ds ++ o2 ++ " to " ++ w) = false.
Proof.
  intros H1 H2 Hd Hw. unfold status_trigger.
  replace (contains "tickets" ("assign " ++ o1 ++ ds ++ o2 ++ " to " ++ w))
    with false; [reflexivity|].
  symmetry.
  destruct H1 as [-> | ->]; cbn;
    (rewrite contains_after_digits by (auto; reflexivity));
    destruct H2 as [-> | ->]; cbn; exact Hw.
Qed.

(** X12.  The reassignment queries.  A query that normalizes to "assign N
    to W", "assign ticket N to W", "assign N ticket to W" or "assign ticket
    N ticket to W", with N a non-empty run of at most 4300 digits and W a
    non-empty run of word characters that does not contain "tickets", is
    handled by the reassignment rule for the ticket whose id is the value
    of N and the name W capitalized: "not found" when no ticket has the
    id, "already assigned" with no change when the ticket's assignee
    equals the capitalized name up to case, and otherwise the outcome and
    the state of [update_ticket_assignment]: "now assigned" when the file
    could be written, [OSError] when it could not. *)
Theorem assign_query_answer q o1 ds o2 w st :
  normalize q = "assign " ++ o1 ++ ds ++ o2 ++ " to " ++ w ->
  o1 = EmptyString \/ o1 = "ticket " ->
  o2 = EmptyString \/ o2 = " ticket" ->
  ds <> EmptyString -> all_digits ds = true ->
  (String.length ds <= int_max_str_digits)%nat ->
  w <> EmptyString -> all_in is_word w = true ->
  latin1_capital w = true ->
  contains "tickets" w = false ->
  process_query q st =
  reassign_answer (digits_value 0 ds) (capitalize w) st.
Proof.
  intros Hq H1 H2 Hne Hd Hlen Hw Hww _ Ht. unfold process_query. rewrite Hq.
  rewrite assign_shape_no_listing, assign_match by assumption.
  apply assign_case_answer; assumption.
Qed.

(** X13.  What follows the name is ignored.  When the normalized query
    starts with one of the four reassignment shapes, with an id of at most
    4300 digits, and the name W is followed by text that begins with a
    character that is not a word character (a blank, a hyphen, a dot,
    ...), the reassignment rule, if the status-listing rule does not take
    the query first, uses W alone as the name: the rest of the line has no
    influence on the outcome or on the state. *)
Theorem assign_query_name_stops q o1 ds o2 w rest st :
  normalize q = "assign " ++ o1 ++ ds ++ o2 ++ " to " ++ w ++ rest ->
  o1 = EmptyString \/ o1 = "ticket " ->
  o2 = EmptyString \/ o2 = " ticket" ->
  ds <> EmptyString -> all_digits ds = true ->
  (String.length ds <= int_max_str_digits)%nat ->
  w <> EmptyString -> all_in is_word w = true ->
  latin1_capital w = true ->
  (forall c rest', rest = String c rest' -> is_word c = false) ->
  status_trigger (normalize q) = false ->
  process_query q st =
  reassign_answer (digits_value 0 ds) (capitalize w) st.
Proof.
  intros Hq H1 H2 Hne Hd Hlen Hw Hww _ Hrest T. unfold process_query.
  rewrite T, Hq, assign_match_before by assumption.
  apply assign_case_answer; assumption.
Qed.

End QueryShapes.

Lemma who_query_answer_witness :
  (normalize " Who is assigned to ticket 007" =
     "who is assigned to ticket " ++ "007" \/
   normalize " Who is assigned to ticket 007" =
     "who is working on ticket " ++ "007") /\
  "007" <> EmptyString /\
  all_digits "007" = true /\
  process_query " Who is assigned to ticket 007" sample_store =
  (if (String.length "007" <=? int_max_str_digits)%nat
   then (Ok (who_answer (digits_value 0 "007") sample_store), sample_store)
   else (Raise ValueError, sample_store)).
Proof.
  split; [left; reflexivity|].
  split; [discriminate|].
  split; [reflexivity|].
  apply (who_query_answer " Who is assigned to ticket 007" "007" sample_store);
    [left; reflexivity|discriminate|reflexivity].
Defined.

Lemma summarize_query_answer_witness :
  normalize "SUMMARIZE ticket 2  " = "summarize ticket " ++ "2" /\
  "2" <> EmptyString /\
  all_digits "2" = true /\
  process_query "SUMMARIZE ticket 2  " sample_store =
  (if (String.length "2" <=? int_max_str_digits)%nat
   then (Ok (summary_answer (digits_value 0 "2") sample_store), sample_store)
   else (Raise ValueError, sample_store)).
Proof.
  split; [reflexivity|].
  split; [discriminate|].
  split; [reflexivity|].
  apply (summarize_query_answer "SUMMARIZE ticket 2  " "2" sample_store);
    [reflexivity|discriminate|reflexivity].
Defined.

Lemma assign_query_answer_witness :
  normalize "Assign ticket 2 to CAROL" =
    "assign " ++ "ticket " ++ "2" ++ EmptyString ++ " to " ++ "carol" /\
  ("ticket " = EmptyString \/ "ticket " = "ticket ") /\
  (EmptyString = EmptyString \/ EmptyString = " ticket") /\
  "2" <> EmptyString /\ all_digits "2" = true /\
  (String.length "2" <= int_max_str_digits)%nat /\
  "carol" <> EmptyString /\ all_in is_word "carol" = true /\
  latin1_capital "carol" = true /\
  contains "tickets" "carol" = false /\
  process_query "Assign ticket 2 to CAROL" sample_store =
  reassign_answer (digits_value 0 "2") (capitalize "carol") sample_store.
Proof.
  assert (L : (String.length "2" <= int_max_str_digits)%nat)
    by (apply Nat.leb_le; reflexivity).
  split; [reflexivity|].
  split; [right; reflexivity|].
  split; [left; reflexivity|].
  split; [discriminate|].
  split; [reflexivity|].
  split; [exact L|].
  split; [discriminate|].
  split; [reflexivity|].
  split; [reflexivity|].
  split; [reflexivity|].
  apply (assign_query_answer "Assign ticket 2 to CAROL" "ticket " "2"
           EmptyString "carol" sample_store);
    [reflexivity|right; reflexivity|left; reflexivity|discriminate
    |reflexivity|exact L|discriminate|reflexivity|reflexivity|reflexivity].
Defined.

Lemma assign_query_name_stops_witness :
  normalize "assign 2 to mary-jane smith" =
    "assign " ++ EmptyString ++ "2" ++ EmptyString ++ " to " ++ "mary" ++
    "-jane smith" /\
  (EmptyString = EmptyString \/ EmptyString = "ticket ") /\
  (EmptyString = EmptyString \/ EmptyString = " ticket") /\
  "2" <> EmptyString /\ all_digits "2" = true /\
  (String.length "2" <= int_max_str_digits)%nat /\
  "mary" <> EmptyString /\ all_in is_word "mary" = true /\
  latin1_capital "mary" = true /\
  (forall c rest', "-jane smith" = String c rest' -> is_word c = false) /\
  status_trigger (normalize "assign 2 to mary-jane smith") = false /\
  process_query "assign 2 to mary-jane smith" sample_store =
  reassign_answer (digits_value 0 "2") (capitalize "mary") sample_store.
Proof.
  assert (L : (String.length "2" <= int_max_str_digits)%nat)
    by (apply Nat.leb_le; reflexivity).
  assert (R : forall c rest',
             "-jane smith" = String c rest' -> is_word c = false).
  { intros c rest' E. injection E as <- _. reflexivity. }
  split; [reflexivity|].
  split; [left; reflexivity|].
  split; [left; reflexivity|].
  split; [discriminate|].
  split; [reflexivity|].
  split; [exact L|].
  split; [discriminate|].
  split; [reflexivity|].
  split; [reflexivity|].
  split; [exact R|].
  split; [reflexivity|].
  apply (assign_query_name_stops "assign 2 to mary-jane smith" EmptyString
           "2" EmptyString "mary" "-jane smith" sample_store);
    [reflexivity|left; reflexivity|left; reflexivity|discriminate
    |reflexivity|exact L|discriminate|reflexivity|reflexivity|exact R
    |reflexivity].
Defined.

Example mary_jane_becomes_mary :
  process_query "assign 2 to mary-jane smith" sample_store =
  (Ok "Ticket 2 is now assigned to Mary.",
   Store [login_bug; set_assigned_to crash "Mary"]
         (json_dump [login_bug; set_assigned_to crash "Mary"]) 1
         always_writable).
Proof. reflexivity. Qed.
